(** * Do Meows: the task store and the feedback notification controller

    A shallow embedding of the main screen [app/(tabs)/index.tsx] as it is
    listed in [03-your-project-explained.md]: the React state of the screen,
    the three task handlers ([handleAddTask], [handleToggleComplete],
    [handleDelete]) and the feedback controller [showFeedback] with its
    [setTimeout]/[clearTimeout] timer.

    - a JavaScript string is the list of its UTF-16 code units;
    - the state hooks are fields of one record; a handler is a function on
      that record: it reads the state of the render it was created in and
      applies every setter it calls; an updater function given to a setter
      runs once, on the current value;
    - the timer runtime is an explicit queue of pending timeouts with a
      clock; letting time pass runs the callbacks that are due;
    - [nanoid] is an external library: the n-th call's result is a
      parameter of the development;
    - a trace of [showFeedback] calls and of timeout callbacks that ran is
      kept beside the state, so that "triggers" and "fires" can be stated. *)

From Stdlib Require Import String Ascii.
From Stdlib Require Import List Bool Arith NArith Lia.
Import ListNotations.

(** ** JavaScript strings *)

Definition jsstring := list N.

Definition js (s : string) : jsstring :=
  map N_of_ascii (list_ascii_of_string s).

(** [a === b] on strings. *)
Definition str_eqb (a b : jsstring) : bool :=
  if list_eq_dec N.eq_dec a b then true else false.

(** ECMAScript [WhiteSpace] and [LineTerminator] code units, the ones
    [String.prototype.trim] strips. *)
Definition isWhiteSpace (c : N) : bool :=
  existsb (N.eqb c)
    [ 9; 10; 11; 12; 13; 32; 160; 5760;
      8192; 8193; 8194; 8195; 8196; 8197; 8198; 8199; 8200; 8201; 8202;
      8232; 8233; 8239; 8287; 12288; 65279 ]%N.

Fixpoint trimStart (s : jsstring) : jsstring :=
  match s with
  | c :: s' => if isWhiteSpace c then trimStart s' else s
  | [] => []
  end.

Definition trimEnd (s : jsstring) : jsstring := rev (trimStart (rev s)).

Definition trim (s : jsstring) : jsstring := trimEnd (trimStart s).

(** Truthiness of a string: the empty string is the only falsy one. *)
Definition truthy (s : jsstring) : bool :=
  match s with [] => false | _ :: _ => true end.

(** ** Types of the screen *)

Record TaskType := mkTask {
  id : jsstring;
  text : jsstring;
  completed : bool
}.

Inductive FeedbackType := Completed | Deleted | Added | Uncompleted.

(** ** Timer runtime *)

Record Timer := mkTimer {
  handle : nat;
  due : N
}.

Definition FEEDBACK_DURATION_MS : N := 3500.

(** What the trace records. *)
Inductive Event :=
| Shown (type : FeedbackType)
| Expired (h : nat).

(** ** The state *)

Record World := mkWorld {
  tasks : list TaskType;
  inputText : jsstring;
  feedbackType : option FeedbackType;
  feedbackImageError : bool;
  feedbackTimeoutRef : option nat;
  clock : N;
  timers : list Timer;
  next_handle : nat;
  nanoid_calls : nat;
  trace : list Event
}.

Definition init : World :=
  {| tasks := []; inputText := []; feedbackType := None;
     feedbackImageError := false; feedbackTimeoutRef := None;
     clock := 0; timers := []; next_handle := 1; nanoid_calls := 0;
     trace := [] |}.

(** The setters replace one field. They take the record apart first, so
    that a chain of setters is evaluated from the inside. *)
Definition setTasks (v : list TaskType) (w : World) : World :=
  let 'mkWorld _ inp ft ferr ref clk tms nh calls tr := w in
  mkWorld v inp ft ferr ref clk tms nh calls tr.

Definition setInputText (v : jsstring) (w : World) : World :=
  let 'mkWorld ts _ ft ferr ref clk tms nh calls tr := w in
  mkWorld ts v ft ferr ref clk tms nh calls tr.

Definition setFeedbackType (v : option FeedbackType) (w : World) : World :=
  let 'mkWorld ts inp _ ferr ref clk tms nh calls tr := w in
  mkWorld ts inp v ferr ref clk tms nh calls tr.

Definition setFeedbackImageError (v : bool) (w : World) : World :=
  let 'mkWorld ts inp ft _ ref clk tms nh calls tr := w in
  mkWorld ts inp ft v ref clk tms nh calls tr.

Definition set_feedbackTimeoutRef (v : option nat) (w : World) : World :=
  let 'mkWorld ts inp ft ferr _ clk tms nh calls tr := w in
  mkWorld ts inp ft ferr v clk tms nh calls tr.

Definition set_clock (v : N) (w : World) : World :=
  let 'mkWorld ts inp ft ferr ref _ tms nh calls tr := w in
  mkWorld ts inp ft ferr ref v tms nh calls tr.

Definition set_timers (v : list Timer) (w : World) : World :=
  let 'mkWorld ts inp ft ferr ref clk _ nh calls tr := w in
  mkWorld ts inp ft ferr ref clk v nh calls tr.

Definition set_next_handle (v : nat) (w : World) : World :=
  let 'mkWorld ts inp ft ferr ref clk tms _ calls tr := w in
  mkWorld ts inp ft ferr ref clk tms v calls tr.

Definition set_nanoid_calls (v : nat) (w : World) : World :=
  let 'mkWorld ts inp ft ferr ref clk tms nh _ tr := w in
  mkWorld ts inp ft ferr ref clk tms nh v tr.

(** Appends an event to the trace. *)
Definition record (e : Event) (w : World) : World :=
  let 'mkWorld ts inp ft ferr ref clk tms nh calls tr := w in
  mkWorld ts inp ft ferr ref clk tms nh calls (tr ++ [e]).

(** ** [setTimeout], [clearTimeout] and the passing of time *)

(** The queue is kept in firing order: earliest due first, and among equal
    due times the one scheduled first. *)
Fixpoint enqueue (tm : Timer) (q : list Timer) : list Timer :=
  match q with
  | [] => [tm]
  | x :: q' => if (due x <=? due tm)%N then x :: enqueue tm q' else tm :: q
  end.

(** [clearTimeout(h)]: drops the pending timeout [h]; nothing happens when
    [h] is not pending (it already ran, or was cleared). *)
Definition clearTimeout (h : nat) (w : World) : World :=
  set_timers (filter (fun tm => negb (handle tm =? h)) (timers w)) w.

(** [setTimeout(cb, delay)] for the one callback the screen schedules; the
    fresh handle is [next_handle]. *)
Definition setTimeout (delay : N) (w : World) : World :=
  set_next_handle (S (next_handle w))
    (set_timers
       (enqueue (mkTimer (next_handle w) (clock w + delay)) (timers w)) w).

(** The body of the arrow function given to [setTimeout]. *)
Definition timeout_callback (w : World) : World :=
  setFeedbackImageError false (setFeedbackType None w).

(** Runs, in queue order, the callbacks of the timeouts due at [target]
    or before; the callback schedules nothing, so the recursion is on the
    queue. *)
Fixpoint run_due (target : N) (q : list Timer) (w : World) : World :=
  match q with
  | [] => set_timers [] w
  | tm :: q' =>
      if (due tm <=? target)%N
      then run_due target q' (timeout_callback (record (Expired (handle tm)) w))
      else set_timers q w
  end.

(** [dt] milliseconds pass. *)
Definition advance (dt : N) (w : World) : World :=
  set_clock (clock w + dt) (run_due (clock w + dt) (timers w) w).

(** ** The feedback controller *)

Definition showFeedback (type : FeedbackType) (w : World) : World :=
  let w0 := record (Shown type) w in
  (* clear any existing timeout *)
  let w1 := match feedbackTimeoutRef w0 with
            | Some h => clearTimeout h w0
            | None => w0
            end in
  (* show the feedback *)
  let w2 := setFeedbackType (Some type) (setFeedbackImageError false w1) in
  (* hide after duration *)
  set_feedbackTimeoutRef (Some (next_handle w2))
    (setTimeout FEEDBACK_DURATION_MS w2).

(** Modelled from the spec: the [onError] handler of the feedback image is
    not part of the listed source (only the [feedbackImageError] state and
    its setter are); the spec says the flag "is set true externally when the
    associated render of the asset fails". *)
Definition onImageError (w : World) : World :=
  setFeedbackImageError true w.

(** ** The task handlers *)

Section Screen.

(** The result of the n-th call of [nanoid()]. *)
Variable nanoid : nat -> jsstring.

(** [handleAddTask]: the early return on a falsy [inputText.trim()], then
    the three effects in the order of the source. *)
Definition handleAddTask (w : World) : World :=
  if negb (truthy (trim (inputText w))) then w
  else
    let t := mkTask (nanoid (nanoid_calls w)) (trim (inputText w)) false in
    let w1 := set_nanoid_calls (S (nanoid_calls w))
                (setTasks (tasks w ++ [t]) w) in
    let w2 := setInputText [] w1 in
    showFeedback Added w2.

Definition toggled (t : TaskType) : TaskType :=
  mkTask (id t) (text t) (negb (completed t)).

(** [handleToggleComplete]: [showFeedback] is called from inside the
    updater, on the task found in the new list; [task?.completed] is falsy
    when [find] gives [undefined]. *)
Definition handleToggleComplete (i : jsstring) (w : World) : World :=
  let next := map (fun t => if str_eqb (id t) i then toggled t else t)
                  (tasks w) in
  let task := find (fun t => str_eqb (id t) i) next in
  let w1 := match task with
            | Some t => if completed t then showFeedback Completed w
                        else showFeedback Uncompleted w
            | None => showFeedback Uncompleted w
            end in
  setTasks next w1.

Definition handleDelete (i : jsstring) (w : World) : World :=
  let w1 := setTasks (filter (fun t => negb (str_eqb (id t) i)) (tasks w)) w in
  showFeedback Deleted w1.

(** ** What can happen to the screen *)

Inductive Action :=
| ChangeText (s : jsstring)
| PressAdd
| PressToggle (i : jsstring)
| PressDelete (i : jsstring)
| ImageError
| Elapse (dt : N).

Definition step (a : Action) (w : World) : World :=
  match a with
  | ChangeText s => setInputText s w
  | PressAdd => handleAddTask w
  | PressToggle i => handleToggleComplete i w
  | PressDelete i => handleDelete i w
  | ImageError => onImageError w
  | Elapse dt => advance dt w
  end.

Definition run (acts : list Action) (w : World) : World :=
  fold_left (fun w a => step a w) acts w.

End Screen.

(** ** Reading the trace *)

(** The feedback kinds [showFeedback] was called with, oldest first. *)
Fixpoint shown (tr : list Event) : list FeedbackType :=
  match tr with
  | [] => []
  | Shown k :: tr' => k :: shown tr'
  | Expired _ :: tr' => shown tr'
  end.

(** The handles of the timeouts whose callback ran, oldest first. *)
Fixpoint expirations (tr : list Event) : list nat :=
  match tr with
  | [] => []
  | Shown _ :: tr' => expirations tr'
  | Expired h :: tr' => h :: expirations tr'
  end.

(** How many times the callback of timeout [h] ran. *)
Definition fired (h : nat) (w : World) : nat :=
  count_occ Nat.eq_dec (expirations (trace w)) h.

(** The feedback events that are visible: the overlay renders
    [feedbackType] when it is not [null]. *)
Definition active (w : World) : list FeedbackType :=
  match feedbackType w with
  | Some k => [k]
  | None => []
  end.

Definition pending (w : World) : list nat := map handle (timers w).

(** ** Invariants of the screen *)

(** The controller part of the state: what [showFeedback] and the timer
    read and write, the fallback flag apart. *)
Definition timing (w : World) :=
  (feedbackType w, feedbackTimeoutRef w, clock w, timers w, next_handle w,
   trace w).

Record timer_inv (w : World) : Prop := {
  inv_pending : forall tm, In tm (timers w) ->
      feedbackTimeoutRef w = Some (handle tm) /\ (clock w < due tm)%N;
  inv_single : length (timers w) <= 1;
  inv_ref : forall h, feedbackTimeoutRef w = Some h -> h < next_handle w;
  inv_trace : forall h, In h (expirations (trace w)) -> h < next_handle w;
  inv_idle : feedbackType w = None <-> timers w = []
}.

(** No more than one feedback event is visible and no more than one
    timeout is pending. *)
Definition at_most_one (w : World) : Prop :=
  length (active w) <= 1 /\ length (pending w) <= 1.

(** Timeout [h] was handed out and is not pending any more: it ran, or it
    was cleared. *)
Definition spent (h : nat) (w : World) : Prop :=
  h < next_handle w /\ ~ In h (pending w).

(** The task-store part of the state. *)
Definition store (w : World) := (tasks w, inputText w, nanoid_calls w).

(** Ids identify tasks, and every id came out of an earlier [nanoid()]. *)
Definition ids_inv (nanoid : nat -> jsstring) (w : World) : Prop :=
  NoDup (map id (tasks w)) /\
  forall t, In t (tasks w) ->
    exists j, j < nanoid_calls w /\ id t = nanoid j.

Definition reachable (nanoid : nat -> jsstring) (w : World) : Prop :=
  exists acts, w = run nanoid acts init.

(** [l1] is [l2] with some elements left out, the others in their order. *)
Inductive subseq {A : Type} : list A -> list A -> Prop :=
| subseq_nil : subseq [] []
| subseq_skip x l1 l2 : subseq l1 l2 -> subseq l1 (x :: l2)
| subseq_keep x l1 l2 : subseq l1 l2 -> subseq (x :: l1) (x :: l2).

(** ** Sample data *)

(** An id generator that never repeats: "id", "idx", "idxx", ... *)
Definition sample_nanoid (n : nat) : jsstring :=
  js "id" ++ repeat 120%N n.

Definition wash_dishes : jsstring := js "  wash dishes ".

(** The screen after typing a task and pressing Add. *)
Definition one_task : World :=
  run sample_nanoid [ChangeText wash_dishes; PressAdd] init.

(** The same, a second task added one second later. *)
Definition two_tasks : World :=
  run sample_nanoid
    [Elapse 1000; ChangeText (js "feed the cat"); PressAdd] one_task.

Definition wash_task : TaskType := mkTask (js "id") (js "wash dishes") false.

Definition feed_task : TaskType := mkTask (js "idx") (js "feed the cat") false.

(** Space, tab, no-break space, line feed. *)
Definition blank_text : jsstring := [32; 9; 160; 10]%N.

(** ** The overlay and more invariants of the screen *)

(** The GIF of each feedback kind; an asset is named by the path given to
    [require]. *)
Definition CAT_IMAGES (type : FeedbackType) : jsstring :=
  match type with
  | Completed => js "@/assets/images/cats/cat-yay.gif"
  | Deleted => js "@/assets/images/cats/cat-sus.gif"
  | Added => js "@/assets/images/cats/cat-watching.gif"
  | Uncompleted => js "@/assets/images/cats/cat-close.gif"
  end.

(** The source of the image in the feedback overlay, which is rendered
    when [feedbackType !== null]. *)
Definition overlay (w : World) : option jsstring :=
  match feedbackType w with
  | Some k => Some (CAT_IMAGES k)
  | None => None
  end.

(** The kind of the latest [showFeedback] call. *)
Definition last_shown (w : World) : option FeedbackType :=
  last (map Some (shown (trace w))) None.

(** A pending timeout is due within the display window, and the kind on
    display is the one of the latest call. *)
Record display_inv (w : World) : Prop := {
  inv_window : forall tm, In tm (timers w) ->
      (due tm <= clock w + FEEDBACK_DURATION_MS)%N;
  inv_last : forall k, feedbackType w = Some k -> last_shown w = Some k
}.

(** A string that does not begin with white space. *)
Definition starts_clean (s : jsstring) : bool :=
  match s with
  | [] => true
  | c :: _ => negb (isWhiteSpace c)
  end.

(** Every task text is a trimmed, non-empty string. *)
Definition text_inv (w : World) : Prop :=
  forall t, In t (tasks w) -> text t <> [] /\ trim (text t) = text t.

(** Kind [k] is on display in [w] and stays for the display window, unless
    something else happens: it is there for the next 3500 ms and gone
    after. *)
Definition on_display_for_window (k : FeedbackType) (w : World) : Prop :=
  feedbackType w = Some k /\
  forall dt,
    feedbackType (advance dt w) =
    if (dt <? FEEDBACK_DURATION_MS)%N then Some k else None.

(** The actions that are no press and no typing. *)
Definition passive (a : Action) : bool :=
  match a with
  | ImageError | Elapse _ => true
  | _ => false
  end.

(** ** The theme hook, [hooks/use-theme-color.ts] *)

Module Theme.

Inductive ColorScheme := light | dark.

(** The keys that [Colors.light] and [Colors.dark] share. *)
Inductive ColorName := text | background | card | border | tint | delete.

(** [constants/theme.ts] *)
Definition Colors (theme : ColorScheme) (colorName : ColorName) : jsstring :=
  match theme, colorName with
  | light, text => js "#1a2634"
  | light, background => js "#e8f2fa"
  | light, card => js "#f5f9fd"
  | light, border => js "#c5d9ed"
  | light, tint => js "#5b9bd5"
  | light, delete => js "#b85c58"
  | dark, text => js "#e8eef4"
  | dark, background => js "#1a2332"
  | dark, card => js "#243447"
  | dark, border => js "#3a4d66"
  | dark, tint => js "#7eb8f0"
  | dark, delete => js "#e09898"
  end.

(** [{ light?: string; dark?: string }]: a missing key reads as
    [undefined]. *)
Record Props := mkProps {
  light_color : option jsstring;
  dark_color : option jsstring
}.

(** [props[theme]] *)
Definition prop (props : Props) (theme : ColorScheme) : option jsstring :=
  match theme with
  | light => light_color props
  | dark => dark_color props
  end.

(** [useThemeColor]; [scheme] is what [useColorScheme()] returns, [None]
    for [null] and [undefined]. *)
Definition useThemeColor (scheme : option ColorScheme) (props : Props)
    (colorName : ColorName) : jsstring :=
  let theme := match scheme with Some t => t | None => light end in
  let colorFromProps := prop props theme in
  match colorFromProps with
  | Some c => if truthy c then c else Colors theme colorName
  | None => Colors theme colorName
  end.

End Theme.

(** ** The page script, [script.js] *)

Module Site.

(** What the script reads and writes: the [data-theme] attribute of the
    root element ([None] when it is not set), the [theme] item of
    [localStorage] ([None] when there is none; the storage is taken to
    accept writes), and the text of the [.theme-toggle] element ([None]
    when the page has no such element). *)
Record Page := mkPage {
  data_theme : option jsstring;
  stored_theme : option jsstring;
  toggle_text : option jsstring
}.

(** U+1F319, crescent moon, as its surrogate pair. *)
Definition moon : jsstring := [55356; 57113]%N.

(** U+2600 U+FE0F, sun. *)
Definition sun : jsstring := [9728; 65039]%N.

(** [theme === 'light' ? moon : sun] *)
Definition icon (theme : jsstring) : jsstring :=
  if str_eqb theme (js "light") then moon else sun.

Definition set_toggle_text (v : jsstring) (p : Page) : Page :=
  match toggle_text p with
  | Some _ => mkPage (data_theme p) (stored_theme p) (Some v)
  | None => p
  end.

Definition toggleTheme (p : Page) : Page :=
  let currentTheme := data_theme p in
  let newTheme :=
    match currentTheme with
    | Some t => if str_eqb t (js "light") then js "dark" else js "light"
    | None => js "light"
    end in
  set_toggle_text (icon newTheme)
    (mkPage (Some newTheme) (Some newTheme) (toggle_text p)).

(** The statements the script runs when the page loads it. *)
Definition load (p : Page) : Page :=
  let savedTheme :=
    match stored_theme p with
    | Some s => if truthy s then s else js "dark"
    | None => js "dark"
    end in
  set_toggle_text (icon savedTheme)
    (mkPage (Some savedTheme) (stored_theme p) (toggle_text p)).

(** The toggle, when the page has one, shows the icon of the theme. *)
Definition icon_matches (p : Page) : Prop :=
  forall txt, toggle_text p = Some txt ->
    exists theme, data_theme p = Some theme /\ txt = icon theme.

End Site.

(** ** [findDuplicates], from the live coding walk-through *)

Section FindDuplicates.

(** The values of the array, with the equality a [Set] uses. *)
Variable A : Type.
Variable A_eq_dec : forall x y : A, {x = y} + {x <> y}.

(** A [Set] is the list of its values in insertion order, none twice. *)
Definition Set_has (s : list A) (x : A) : bool :=
  if in_dec A_eq_dec x s then true else false.

Definition Set_add (s : list A) (x : A) : list A :=
  if Set_has s x then s else s ++ [x].

(** The body of the [for] loop, on the pair of [seen] and [duplicates]. *)
Definition visit (st : list A * list A) (num : A) : list A * list A :=
  let (seen, duplicates) := st in
  if Set_has seen num then (seen, Set_add duplicates num)
  else (Set_add seen num, duplicates).

Definition findDuplicates (arr : list A) : list A :=
  snd (fold_left visit arr ([], [])).

End FindDuplicates.

Arguments Set_has {A} A_eq_dec s x.
Arguments Set_add {A} A_eq_dec s x.
Arguments visit {A} A_eq_dec st num.
Arguments findDuplicates {A} A_eq_dec arr.

(** ** The edit mode, from the "add an edit feature" walk-through *)

(** The screen with the two hooks the walk-through adds. *)
Record EditScreen := mkEdit {
  screen : World;
  editingId : option jsstring;
  editText : jsstring
}.

(** [t.id === editingId], where [editingId] may be [null]. *)
Definition is_editing (e : EditScreen) (t : TaskType) : bool :=
  match editingId e with
  | Some i => str_eqb (id t) i
  | None => false
  end.

Definition handleStartEdit (task : TaskType) (e : EditScreen) : EditScreen :=
  mkEdit (screen e) (Some (id task)) (text task).

Definition handleSaveEdit (e : EditScreen) : EditScreen :=
  if negb (truthy (trim (editText e))) then e
  else
    mkEdit
      (setTasks
         (map (fun t =>
                 if is_editing e t
                 then mkTask (id t) (trim (editText e)) (completed t)
                 else t)
              (tasks (screen e)))
         (screen e))
      None [].

Definition handleCancelEdit (e : EditScreen) : EditScreen :=
  mkEdit (screen e) None [].

(** ** A generator that repeats itself *)



(** * Proofs *)

(** ** Strings *)

Lemma str_eqb_eq (a b : jsstring) : str_eqb a b = true <-> a = b.
Proof.
  unfold str_eqb. destruct (list_eq_dec N.eq_dec a b); split; congruence.
Qed.

Lemma str_eqb_neq (a b : jsstring) : str_eqb a b = false <-> a <> b.
Proof.
  unfold str_eqb. destruct (list_eq_dec N.eq_dec a b); split; congruence.
Qed.

Lemma str_eqb_refl (a : jsstring) : str_eqb a a = true.
Proof. now apply str_eqb_eq. Qed.

Lemma trimStart_nil (s : jsstring) :
  trimStart s = [] <-> forallb isWhiteSpace s = true.
Proof.
  induction s as [|c s IH]; simpl.
  - tauto.
  - destruct (isWhiteSpace c); simpl.
    + exact IH.
    + split; discriminate.
Qed.

Lemma trimStart_forallb (s : jsstring) :
  forallb isWhiteSpace (trimStart s) = forallb isWhiteSpace s.
Proof.
  induction s as [|c s IH]; simpl; [reflexivity|].
  destruct (isWhiteSpace c) eqn:E; simpl; [exact IH|now rewrite E].
Qed.

Lemma forallb_rev {A} (p : A -> bool) (l : list A) :
  forallb p (rev l) = forallb p l.
Proof.
  induction l as [|x l IH]; simpl; [reflexivity|].
  rewrite forallb_app, IH. simpl. rewrite andb_true_r. apply andb_comm.
Qed.

(** [trim] gives the empty string exactly on the strings made of white
    space only (the empty one among them). *)
Lemma trim_nil (s : jsstring) :
  trim s = [] <-> forallb isWhiteSpace s = true.
Proof.
  unfold trim, trimEnd.
  rewrite <- (trimStart_forallb s), <- (forallb_rev _ (trimStart s)).
  rewrite <- trimStart_nil. split.
  - intros H. apply (f_equal (@rev N)) in H. now rewrite rev_involutive in H.
  - intros ->. reflexivity.
Qed.

(** ** The trace *)

Lemma expirations_app (a b : list Event) :
  expirations (a ++ b) = expirations a ++ expirations b.
Proof.
  induction a as [|[k|h] a IH]; simpl; [reflexivity|assumption|].
  now rewrite IH.
Qed.

(** ** The controller, step by step *)

Ltac open_world w :=
  destruct w as [ts inp ft ferr ref clk tms nh calls tr]; simpl in *.

Ltac open_world' w :=
  destruct w as [ts' inp' ft' ferr' ref' clk' tms' nh' calls' tr'];
  simpl in *.

Ltac setters :=
  unfold showFeedback, clearTimeout, setTimeout, timeout_callback,
    onImageError, record, setTasks, setInputText, setFeedbackType,
    setFeedbackImageError, set_feedbackTimeoutRef, set_clock, set_timers,
    set_next_handle, set_nanoid_calls in *;
  simpl in *.

(** Each setter, and [showFeedback], as the record it builds. *)

Lemma setTasks_eq v (w : World) :
  setTasks v w =
  mkWorld v (inputText w) (feedbackType w) (feedbackImageError w)
    (feedbackTimeoutRef w) (clock w) (timers w) (next_handle w)
    (nanoid_calls w) (trace w).
Proof. now destruct w. Qed.

Lemma setInputText_eq v (w : World) :
  setInputText v w =
  mkWorld (tasks w) v (feedbackType w) (feedbackImageError w)
    (feedbackTimeoutRef w) (clock w) (timers w) (next_handle w)
    (nanoid_calls w) (trace w).
Proof. now destruct w. Qed.

Lemma set_nanoid_calls_eq v (w : World) :
  set_nanoid_calls v w =
  mkWorld (tasks w) (inputText w) (feedbackType w) (feedbackImageError w)
    (feedbackTimeoutRef w) (clock w) (timers w) (next_handle w) v (trace w).
Proof. now destruct w. Qed.

Lemma setFeedbackImageError_eq v (w : World) :
  setFeedbackImageError v w =
  mkWorld (tasks w) (inputText w) (feedbackType w) v
    (feedbackTimeoutRef w) (clock w) (timers w) (next_handle w)
    (nanoid_calls w) (trace w).
Proof. now destruct w. Qed.

Lemma showFeedback_unfold (k : FeedbackType) (w : World) :
  showFeedback k w =
  mkWorld (tasks w) (inputText w) (Some k) false (Some (next_handle w))
    (clock w)
    (enqueue (mkTimer (next_handle w) (clock w + FEEDBACK_DURATION_MS))
       match feedbackTimeoutRef w with
       | Some h => filter (fun tm => negb (handle tm =? h)) (timers w)
       | None => timers w
       end)
    (S (next_handle w)) (nanoid_calls w) (trace w ++ [Shown k]).
Proof. open_world w. setters. destruct ref; reflexivity. Qed.

Create Rewrite HintDb world.

#[local] Hint Rewrite setTasks_eq setInputText_eq set_nanoid_calls_eq
  setFeedbackImageError_eq showFeedback_unfold : world.

Ltac worlds := autorewrite with world; simpl.

Lemma timer_inv_cases (w : World) :
  timer_inv w ->
  (timers w = [] /\ feedbackType w = None) \/
  (exists h d,
      timers w = [mkTimer h d] /\ feedbackTimeoutRef w = Some h /\
      (clock w < d)%N /\ h < next_handle w /\ feedbackType w <> None).
Proof.
  intros [Hp Hs Hr Ht Hi].
  destruct (timers w) as [|[h d] [|tm q]] eqn:E.
  - left. split; [reflexivity|]. now apply Hi.
  - right. exists h, d.
    destruct (Hp (mkTimer h d) (or_introl eq_refl)) as [Href Hclk].
    simpl in *. repeat split; auto.
    intros Hn. apply Hi in Hn. discriminate.
  - simpl in Hs. lia.
Qed.

(** In a state that satisfies the invariant, [showFeedback] leaves exactly
    one pending timeout: the new one. *)
Lemma showFeedback_eq (k : FeedbackType) (w : World) :
  timer_inv w ->
  showFeedback k w =
  mkWorld (tasks w) (inputText w) (Some k) false (Some (next_handle w))
    (clock w)
    [mkTimer (next_handle w) (clock w + FEEDBACK_DURATION_MS)]
    (S (next_handle w)) (nanoid_calls w) (trace w ++ [Shown k]).
Proof.
  intros Hinv.
  destruct (timer_inv_cases _ Hinv) as [[Hq _]|(h & d & Hq & Href & _)];
    destruct Hinv as [_ _ Hr _ _]; open_world w; subst.
  - unfold showFeedback; simpl. destruct ref; reflexivity.
  - setters. now rewrite Nat.eqb_refl.
Qed.

Lemma advance_idle (dt : N) (w : World) :
  timers w = [] ->
  advance dt w =
  mkWorld (tasks w) (inputText w) (feedbackType w) (feedbackImageError w)
    (feedbackTimeoutRef w) (clock w + dt) [] (next_handle w)
    (nanoid_calls w) (trace w).
Proof. intros H. open_world w. now subst. Qed.

Lemma advance_early (dt : N) (w : World) h d :
  timers w = [mkTimer h d] -> (clock w + dt < d)%N ->
  advance dt w =
  mkWorld (tasks w) (inputText w) (feedbackType w) (feedbackImageError w)
    (feedbackTimeoutRef w) (clock w + dt) [mkTimer h d] (next_handle w)
    (nanoid_calls w) (trace w).
Proof.
  intros H Hlt. open_world w. subst. unfold advance; simpl.
  apply N.leb_gt in Hlt. now rewrite Hlt.
Qed.

Lemma advance_late (dt : N) (w : World) h d :
  timers w = [mkTimer h d] -> (d <= clock w + dt)%N ->
  advance dt w =
  mkWorld (tasks w) (inputText w) None false (feedbackTimeoutRef w)
    (clock w + dt) [] (next_handle w) (nanoid_calls w)
    (trace w ++ [Expired h]).
Proof.
  intros H Hle. open_world w. subst. unfold advance; simpl.
  apply N.leb_le in Hle. now rewrite Hle.
Qed.

(** ** The timer invariant holds throughout *)

Lemma timer_inv_init : timer_inv init.
Proof.
  constructor; simpl; try tauto; try discriminate; auto.
Qed.

Lemma timer_inv_timing (w w' : World) :
  timing w = timing w' -> timer_inv w -> timer_inv w'.
Proof.
  unfold timing. intros H [Hp Hs Hr Ht Hi].
  open_world w. open_world' w'. injection H as <- <- <- <- <- <-.
  constructor; assumption.
Qed.

Lemma timer_inv_showFeedback (k : FeedbackType) (w : World) :
  timer_inv w -> timer_inv (showFeedback k w).
Proof.
  intros Hinv. rewrite (showFeedback_eq k _ Hinv).
  destruct Hinv as [_ _ Hr Ht _].
  constructor; simpl.
  - intros tm [<-|[]]. simpl. split; [reflexivity|].
    unfold FEEDBACK_DURATION_MS. lia.
  - lia.
  - intros h [= <-]. lia.
  - intros h. rewrite expirations_app. simpl. rewrite app_nil_r.
    intros Hin. apply Ht in Hin. lia.
  - split; discriminate.
Qed.

Lemma timer_inv_advance (dt : N) (w : World) :
  timer_inv w -> timer_inv (advance dt w).
Proof.
  intros Hinv.
  destruct (timer_inv_cases _ Hinv) as [[Hq Hn]|(h & d & Hq & Href & Hc & Hh & Hs)].
  - rewrite (advance_idle dt _ Hq).
    destruct Hinv as [Hp Hsg Hr Ht Hi]. constructor; simpl; auto.
    + intros tm [].
    + tauto.
  - destruct (N.lt_ge_cases (clock w + dt) d) as [Hlt|Hge].
    + rewrite (advance_early dt _ _ _ Hq Hlt).
      destruct Hinv as [Hp Hsg Hr Ht Hi]. constructor; simpl; auto.
      * intros tm [<-|[]]. simpl. now split.
      * split; [tauto|discriminate].
    + rewrite (advance_late dt _ _ _ Hq Hge).
      destruct Hinv as [Hp Hsg Hr Ht Hi]. constructor; simpl; auto.
      * intros tm [].
      * intros h'. rewrite expirations_app. simpl.
        intros Hin. apply in_app_or in Hin. destruct Hin as [Hin|[<-|[]]]; auto.
      * tauto.
Qed.

Lemma showFeedback_timing (k : FeedbackType) (w w' : World) :
  timing w = timing w' ->
  timing (showFeedback k w) = timing (showFeedback k w').
Proof.
  unfold timing. intros H.
  open_world w. open_world' w'. injection H as <- <- <- <- <- <-.
  unfold showFeedback; simpl. destruct ref; reflexivity.
Qed.

Lemma timing_setTasks v (w : World) : timing (setTasks v w) = timing w.
Proof. now destruct w. Qed.

Lemma timing_setInputText v (w : World) :
  timing (setInputText v w) = timing w.
Proof. now destruct w. Qed.

Lemma timing_set_nanoid_calls v (w : World) :
  timing (set_nanoid_calls v w) = timing w.
Proof. now destruct w. Qed.

Lemma timing_setFeedbackImageError v (w : World) :
  timing (setFeedbackImageError v w) = timing w.
Proof. now destruct w. Qed.

Section ScreenFacts.

Variable nanoid : nat -> jsstring.

(** Every action is, for the controller, nothing at all, one call of
    [showFeedback], or the passing of time. *)
Lemma step_timing (a : Action) (w : World) :
  timing (step nanoid a w) = timing w \/
  (exists k, timing (step nanoid a w) = timing (showFeedback k w)) \/
  (exists dt, timing (step nanoid a w) = timing (advance dt w)).
Proof.
  destruct a as [s| |i|i| |dt]; simpl.
  - left. apply timing_setInputText.
  - unfold handleAddTask.
    destruct (negb (truthy (trim (inputText w)))); [now left|].
    right; left. exists Added. apply showFeedback_timing.
    now rewrite timing_setInputText, timing_set_nanoid_calls, timing_setTasks.
  - unfold handleToggleComplete. rewrite timing_setTasks.
    destruct (find _ _) as [t|]; [destruct (completed t)|].
    + right; left. exists Completed. reflexivity.
    + right; left. exists Uncompleted. reflexivity.
    + right; left. exists Uncompleted. reflexivity.
  - right; left. exists Deleted. apply showFeedback_timing, timing_setTasks.
  - left. apply timing_setFeedbackImageError.
  - right; right. exists dt. reflexivity.
Qed.

Lemma timer_inv_step (a : Action) (w : World) :
  timer_inv w -> timer_inv (step nanoid a w).
Proof.
  intros Hinv.
  destruct (step_timing a w) as [H|[[k H]|[dt H]]];
    symmetry in H; apply (timer_inv_timing _ _ H).
  - assumption.
  - now apply timer_inv_showFeedback.
  - now apply timer_inv_advance.
Qed.

Lemma timer_inv_run (acts : list Action) (w : World) :
  timer_inv w -> timer_inv (run nanoid acts w).
Proof.
  revert w. induction acts as [|a acts IH]; intros w Hinv; simpl.
  - assumption.
  - apply IH. now apply timer_inv_step.
Qed.

Lemma reachable_timer_inv (w : World) :
  reachable nanoid w -> timer_inv w.
Proof.
  intros [acts ->]. apply timer_inv_run, timer_inv_init.
Qed.

End ScreenFacts.

(** ** A timeout that is not pending never runs again *)

Lemma fired_timing (h : nat) (w w' : World) :
  timing w = timing w' -> fired h w = fired h w'.
Proof.
  unfold timing, fired. intros H. injection H as _ _ _ _ _ H.
  now rewrite H.
Qed.

Lemma spent_timing (h : nat) (w w' : World) :
  timing w = timing w' -> spent h w -> spent h w'.
Proof.
  unfold timing, spent, pending. intros H.
  injection H as _ _ _ Hq Hn _. now rewrite Hq, Hn.
Qed.

Lemma spent_showFeedback (h : nat) (k : FeedbackType) (w : World) :
  timer_inv w -> spent h w ->
  spent h (showFeedback k w) /\ fired h (showFeedback k w) = fired h w.
Proof.
  intros Hinv [Hlt Hnp]. rewrite (showFeedback_eq k _ Hinv).
  unfold spent, pending, fired; simpl. repeat split.
  - lia.
  - intros [E|[]]. lia.
  - rewrite expirations_app. simpl. now rewrite app_nil_r.
Qed.

Lemma spent_advance (h : nat) (dt : N) (w : World) :
  timer_inv w -> spent h w ->
  spent h (advance dt w) /\ fired h (advance dt w) = fired h w.
Proof.
  intros Hinv [Hlt Hnp]. unfold spent, pending, fired in *.
  destruct (timer_inv_cases _ Hinv) as [[Hq _]|(h' & d & Hq & _)];
    rewrite Hq in Hnp; simpl in Hnp.
  - rewrite (advance_idle dt _ Hq). simpl. tauto.
  - destruct (N.lt_ge_cases (clock w + dt) d) as [Hc|Hc].
    + rewrite (advance_early dt _ _ _ Hq Hc). simpl. tauto.
    + rewrite (advance_late dt _ _ _ Hq Hc). simpl. repeat split; auto.
      rewrite expirations_app, count_occ_app. simpl.
      destruct (Nat.eq_dec h' h); [tauto|lia].
Qed.

Section Quiet.

Variable nanoid : nat -> jsstring.

Lemma spent_step (h : nat) (a : Action) (w : World) :
  timer_inv w -> spent h w ->
  spent h (step nanoid a w) /\ fired h (step nanoid a w) = fired h w.
Proof.
  intros Hinv Hs.
  destruct (step_timing nanoid a w) as [H|[[k H]|[dt H]]];
    rewrite (fired_timing h _ _ H); symmetry in H.
  - split; [exact (spent_timing _ _ _ H Hs)|reflexivity].
  - destruct (spent_showFeedback _ k _ Hinv Hs) as [Hs' Hf].
    split; [exact (spent_timing _ _ _ H Hs')|exact Hf].
  - destruct (spent_advance _ dt _ Hinv Hs) as [Hs' Hf].
    split; [exact (spent_timing _ _ _ H Hs')|exact Hf].
Qed.

(** Whatever happens next, a spent timeout does not run. *)
Lemma spent_run (h : nat) (acts : list Action) (w : World) :
  timer_inv w -> spent h w -> fired h (run nanoid acts w) = fired h w.
Proof.
  revert w. induction acts as [|a acts IH]; intros w Hinv Hs; simpl.
  - reflexivity.
  - destruct (spent_step _ a _ Hinv Hs) as [Hs' Hf].
    rewrite <- Hf. apply IH; [now apply timer_inv_step|assumption].
Qed.

End Quiet.

(** Time passes in one piece or in two: the same callbacks run. *)
Lemma advance_add (a b : N) (w : World) :
  timer_inv w -> advance (a + b) w = advance b (advance a w).
Proof.
  intros Hinv.
  destruct (timer_inv_cases _ Hinv) as [[Hq _]|(h & d & Hq & _)].
  - rewrite (advance_idle a _ Hq), (advance_idle (a + b) _ Hq).
    rewrite advance_idle by reflexivity.
    simpl. now rewrite N.add_assoc.
  - destruct (N.lt_ge_cases (clock w + a) d) as [Ha|Ha].
    + rewrite (advance_early a _ _ _ Hq Ha).
      destruct (N.lt_ge_cases (clock w + (a + b)) d) as [Hb|Hb].
      * rewrite (advance_early (a + b) _ _ _ Hq Hb).
        rewrite (advance_early b _ h d); simpl; [|reflexivity|lia].
        now rewrite N.add_assoc.
      * rewrite (advance_late (a + b) _ _ _ Hq Hb).
        rewrite (advance_late b _ h d); simpl; [|reflexivity|lia].
        now rewrite N.add_assoc.
    + rewrite (advance_late a _ _ _ Hq Ha).
      rewrite (advance_late (a + b) _ _ _ Hq) by lia.
      rewrite advance_idle by reflexivity.
      simpl. now rewrite N.add_assoc.
Qed.

(** ** The controller leaves the task store alone *)

Lemma showFeedback_store (k : FeedbackType) (w : World) :
  store (showFeedback k w) = store w.
Proof. open_world w. setters. destruct ref; reflexivity. Qed.

Lemma run_due_store (target : N) (q : list Timer) (w : World) :
  store (run_due target q w) = store w.
Proof.
  revert w. induction q as [|tm q IH]; intros w; simpl.
  - now destruct w.
  - destruct (due tm <=? target)%N; [|now destruct w].
    rewrite IH. now destruct w.
Qed.

Lemma store_set_clock (c : N) (w : World) : store (set_clock c w) = store w.
Proof. now destruct w. Qed.

Lemma advance_store (dt : N) (w : World) : store (advance dt w) = store w.
Proof. unfold advance. rewrite store_set_clock. apply run_due_store. Qed.

Lemma showFeedback_tasks (k : FeedbackType) (w : World) :
  tasks (showFeedback k w) = tasks w.
Proof. exact (f_equal (fun s => fst (fst s)) (showFeedback_store k w)). Qed.

Lemma showFeedback_inputText (k : FeedbackType) (w : World) :
  inputText (showFeedback k w) = inputText w.
Proof. exact (f_equal (fun s => snd (fst s)) (showFeedback_store k w)). Qed.

Lemma showFeedback_nanoid_calls (k : FeedbackType) (w : World) :
  nanoid_calls (showFeedback k w) = nanoid_calls w.
Proof. exact (f_equal snd (showFeedback_store k w)). Qed.

Lemma showFeedback_trace (k : FeedbackType) (w : World) :
  trace (showFeedback k w) = trace w ++ [Shown k].
Proof. open_world w. setters. destruct ref; reflexivity. Qed.

Lemma showFeedback_feedbackType (k : FeedbackType) (w : World) :
  feedbackType (showFeedback k w) = Some k.
Proof. open_world w. setters. destruct ref; reflexivity. Qed.

Lemma showFeedback_feedbackImageError (k : FeedbackType) (w : World) :
  feedbackImageError (showFeedback k w) = false.
Proof. open_world w. setters. destruct ref; reflexivity. Qed.

(** ** Lists of tasks *)

Lemma toggled_involutive (t : TaskType) : toggled (toggled t) = t.
Proof. destruct t as [i x c]. unfold toggled; simpl. now rewrite negb_involutive. Qed.

Lemma map_toggle_absent (i : jsstring) (l : list TaskType) :
  (forall t, In t l -> id t <> i) ->
  map (fun t => if str_eqb (id t) i then toggled t else t) l = l.
Proof.
  induction l as [|x l IH]; intros H; simpl; [reflexivity|].
  rewrite IH by (intros t Ht; apply H; now right).
  assert (E : str_eqb (id x) i = false)
    by (apply str_eqb_neq, H; now left).
  now rewrite E.
Qed.

Lemma find_absent (i : jsstring) (l : list TaskType) :
  (forall t, In t l -> id t <> i) ->
  find (fun t => str_eqb (id t) i) l = None.
Proof.
  induction l as [|x l IH]; intros H; simpl; [reflexivity|].
  assert (E : str_eqb (id x) i = false)
    by (apply str_eqb_neq, H; now left).
  rewrite E. apply IH. intros t Ht. apply H. now right.
Qed.

Lemma filter_absent (i : jsstring) (l : list TaskType) :
  (forall t, In t l -> id t <> i) ->
  filter (fun t => negb (str_eqb (id t) i)) l = l.
Proof.
  induction l as [|x l IH]; intros H; simpl; [reflexivity|].
  assert (E : str_eqb (id x) i = false)
    by (apply str_eqb_neq, H; now left).
  rewrite E. simpl. f_equal. apply IH. intros t Ht. apply H. now right.
Qed.

Lemma find_app_absent (i : jsstring) (l1 l2 : list TaskType) :
  (forall t, In t l1 -> id t <> i) ->
  find (fun t => str_eqb (id t) i) (l1 ++ l2) =
  find (fun t => str_eqb (id t) i) l2.
Proof.
  induction l1 as [|x l1 IH]; intros H; simpl; [reflexivity|].
  assert (E : str_eqb (id x) i = false)
    by (apply str_eqb_neq, H; now left).
  rewrite E. apply IH. intros t Ht. apply H. now right.
Qed.

(** With ids that identify tasks, a task of the list splits it in two parts
    that do not carry its id. *)
Lemma split_at_id (l : list TaskType) (t : TaskType) :
  NoDup (map id l) -> In t l ->
  exists l1 l2,
    l = l1 ++ t :: l2 /\
    (forall u, In u l1 -> id u <> id t) /\
    (forall u, In u l2 -> id u <> id t).
Proof.
  intros Hnd Hin. apply in_split in Hin. destruct Hin as (l1 & l2 & ->).
  exists l1, l2. split; [reflexivity|].
  rewrite map_app in Hnd. simpl in Hnd.
  pose proof (NoDup_remove_2 _ _ _ Hnd) as Hout.
  split; intros u Hu E; apply Hout, in_or_app; [left|right];
    rewrite <- E; now apply in_map.
Qed.

Lemma subseq_filter {A} (p : A -> bool) (l : list A) :
  subseq (filter p l) l.
Proof.
  induction l as [|x l IH]; simpl; [constructor|].
  destruct (p x); now constructor.
Qed.

(** Leaving tasks out keeps the ids distinct. *)
Lemma ids_unique_filter (keep : TaskType -> bool) (ts : list TaskType) :
  NoDup (map id ts) -> NoDup (map id (filter keep ts)).
Proof.
  intros Hnd. induction ts as [|t ts IH]; simpl in *; [exact Hnd|].
  apply NoDup_cons_iff in Hnd. destruct Hnd as [Hout Hnd].
  destruct (keep t); simpl; [|exact (IH Hnd)].
  apply NoDup_cons; [|exact (IH Hnd)].
  rewrite in_map_iff. intros (u & Eu & Hu).
  apply filter_In in Hu. apply Hout. rewrite <- Eu.
  apply in_map. tauto.
Qed.

Lemma map_id_toggle (i : jsstring) (l : list TaskType) :
  map id (map (fun t => if str_eqb (id t) i then toggled t else t) l) =
  map id l.
Proof.
  rewrite map_map. apply map_ext. intros t.
  now destruct (str_eqb (id t) i).
Qed.

(** ** What the handlers do to the task store *)

Section StoreFacts.

Variable nanoid : nat -> jsstring.

Lemma handleAddTask_blank (w : World) :
  trim (inputText w) = [] -> handleAddTask nanoid w = w.
Proof. unfold handleAddTask. now intros ->. Qed.

Lemma handleAddTask_text (w : World) :
  trim (inputText w) <> [] ->
  handleAddTask nanoid w =
  showFeedback Added
    (setInputText []
       (set_nanoid_calls (S (nanoid_calls w))
          (setTasks
             (tasks w ++
              [mkTask (nanoid (nanoid_calls w)) (trim (inputText w)) false])
             w))).
Proof.
  unfold handleAddTask. destruct (trim (inputText w)); [congruence|reflexivity].
Qed.

Lemma handleToggleComplete_tasks (i : jsstring) (w : World) :
  tasks (handleToggleComplete i w) =
  map (fun t => if str_eqb (id t) i then toggled t else t) (tasks w).
Proof. unfold handleToggleComplete. now rewrite setTasks_eq. Qed.

Lemma handleDelete_tasks (i : jsstring) (w : World) :
  tasks (handleDelete i w) =
  filter (fun t => negb (str_eqb (id t) i)) (tasks w).
Proof. unfold handleDelete. now worlds. Qed.

Lemma handleToggleComplete_calls (i : jsstring) (w : World) :
  nanoid_calls (handleToggleComplete i w) = nanoid_calls w.
Proof.
  unfold handleToggleComplete. rewrite setTasks_eq. simpl.
  destruct (find _ _) as [t|]; [destruct (completed t)|];
    apply showFeedback_nanoid_calls.
Qed.

Lemma ids_inv_init : ids_inv nanoid init.
Proof. split; simpl; [constructor|tauto]. Qed.

Hypothesis nanoid_unique : forall i j, nanoid i = nanoid j -> i = j.

Lemma ids_inv_step (a : Action) (w : World) :
  ids_inv nanoid w -> ids_inv nanoid (step nanoid a w).
Proof.
  intros [Hnd Hgen]. unfold ids_inv. destruct a as [s| |i|i| |dt]; simpl.
  - worlds. now split.
  - destruct (list_eq_dec N.eq_dec (trim (inputText w)) []) as [E|E].
    + rewrite (handleAddTask_blank _ E). now split.
    + rewrite (handleAddTask_text _ E). worlds. split.
      * rewrite map_app. simpl.
        apply NoDup_app; [assumption|repeat constructor; intros []|].
        intros x Hx [<-|[]]. apply in_map_iff in Hx.
        destruct Hx as (t & Et & Ht). destruct (Hgen t Ht) as (j & Hj & Ej).
        rewrite Ej in Et. apply nanoid_unique in Et. lia.
      * intros t Ht. apply in_app_or in Ht. destruct Ht as [Ht|[<-|[]]].
        -- destruct (Hgen t Ht) as (j & Hj & Ej).
           exists j. split; [lia|assumption].
        -- exists (nanoid_calls w). split; [lia|reflexivity].
  - rewrite handleToggleComplete_tasks, handleToggleComplete_calls,
      map_id_toggle.
    split; [assumption|].
    intros t Ht. apply in_map_iff in Ht. destruct Ht as (u & <- & Hu).
    destruct (Hgen u Hu) as (j & Hj & Ej). exists j. split; [assumption|].
    now destruct (str_eqb (id u) i).
  - unfold handleDelete. worlds. split.
    + now apply ids_unique_filter.
    + intros t Ht. apply filter_In in Ht. now apply Hgen.
  - unfold onImageError. worlds. now split.
  - pose proof (advance_store dt w) as Hs. unfold store in Hs.
    injection Hs as Ht _ Hc. now rewrite Ht, Hc.
Qed.

Lemma ids_inv_run (acts : list Action) (w : World) :
  ids_inv nanoid w -> ids_inv nanoid (run nanoid acts w).
Proof.
  revert w. induction acts as [|a acts IH]; intros w Hinv; simpl.
  - assumption.
  - apply IH. now apply ids_inv_step.
Qed.

Lemma reachable_ids_inv (w : World) :
  reachable nanoid w -> ids_inv nanoid w.
Proof.
  intros [acts ->]. apply ids_inv_run, ids_inv_init.
Qed.

End StoreFacts.

Lemma sample_nanoid_unique (i j : nat) :
  sample_nanoid i = sample_nanoid j -> i = j.
Proof.
  unfold sample_nanoid. intros H. apply app_inv_head in H.
  apply (f_equal (@List.length N)) in H. now rewrite !repeat_length in H.
Qed.

(** * The feedback controller *)

(** The state [dt] milliseconds after a call of [showFeedback], nothing
    else happening in between. *)
Lemma showFeedback_then_wait (k : FeedbackType) (dt : N) (w : World) :
  timer_inv w ->
  advance dt (showFeedback k w) =
  if (dt <? FEEDBACK_DURATION_MS)%N
  then mkWorld (tasks w) (inputText w) (Some k) false
         (Some (next_handle w)) (clock w + dt)
         [mkTimer (next_handle w) (clock w + FEEDBACK_DURATION_MS)]
         (S (next_handle w)) (nanoid_calls w) (trace w ++ [Shown k])
  else mkWorld (tasks w) (inputText w) None false
         (Some (next_handle w)) (clock w + dt) []
         (S (next_handle w)) (nanoid_calls w)
         ((trace w ++ [Shown k]) ++ [Expired (next_handle w)]).
Proof.
  intros Hinv. rewrite (showFeedback_eq k _ Hinv).
  destruct (dt <? FEEDBACK_DURATION_MS)%N eqn:E.
  - apply N.ltb_lt in E.
    erewrite advance_early; [reflexivity|reflexivity|simpl; lia].
  - apply N.ltb_ge in E.
    erewrite advance_late; [reflexivity|reflexivity|simpl; lia].
Qed.

Lemma fired_fresh (w : World) :
  timer_inv w -> fired (next_handle w) w = 0.
Proof.
  intros Hinv. unfold fired. apply count_occ_not_In.
  intros Hin. apply (inv_trace _ Hinv) in Hin. lia.
Qed.

Lemma at_most_one_inv (w : World) : timer_inv w -> at_most_one w.
Proof.
  intros Hinv. split.
  - unfold active. destruct (feedbackType w); simpl; lia.
  - unfold pending. rewrite length_map. apply (inv_single _ Hinv).
Qed.

Section Controller.

Variable nanoid : nat -> jsstring.

(** C1. When [showFeedback B] is called [d] ms after [showFeedback A],
    with [d] less than the display window: A's timeout is the pending one
    at that moment and the call removes it; the state shows B; from then on
    the state shows B until B's own timeout runs, 3500 ms after the second
    call, and that is the only timeout callback that runs; A's timeout
    never runs, whatever happens to the screen later. At every moment no
    more than one feedback event is visible and no more than one timeout is
    pending. *)
Theorem showFeedback_supersedes (A B : FeedbackType) (d : N) (w : World) :
  timer_inv w -> (d < FEEDBACK_DURATION_MS)%N ->
  let wA := showFeedback A w in
  let hA := next_handle w in
  let wB := showFeedback B (advance d wA) in
  let hB := S hA in
  (pending (advance d wA) = [hA] /\ feedbackType (advance d wA) = Some A) /\
  (pending wB = [hB] /\ ~ In hA (pending wB) /\ feedbackType wB = Some B) /\
  (forall dt,
      feedbackType (advance dt wB) =
      if (dt <? FEEDBACK_DURATION_MS)%N then Some B else None) /\
  (forall dt,
      trace (advance dt wB) =
      trace wB ++
      if (dt <? FEEDBACK_DURATION_MS)%N then [] else [Expired hB]) /\
  (forall acts, fired hA (run nanoid acts wB) = 0) /\
  (at_most_one wA /\
   (forall d', at_most_one (advance d' wA)) /\
   (forall acts, at_most_one (run nanoid acts wB))).
Proof.
  intros Hinv Hd wA hA wB hB.
  assert (HinvA : timer_inv wA) by now apply timer_inv_showFeedback.
  assert (HinvA' : timer_inv (advance d wA)) by now apply timer_inv_advance.
  assert (HinvB : timer_inv wB) by now apply timer_inv_showFeedback.
  assert (EA : advance d wA =
               mkWorld (tasks w) (inputText w) (Some A) false (Some hA)
                 (clock w + d) [mkTimer hA (clock w + FEEDBACK_DURATION_MS)]
                 (S hA) (nanoid_calls w) (trace w ++ [Shown A])).
  { unfold wA. rewrite (showFeedback_then_wait A d w Hinv).
    apply N.ltb_lt in Hd. now rewrite Hd. }
  assert (EB : wB =
               mkWorld (tasks w) (inputText w) (Some B) false (Some hB)
                 (clock w + d)
                 [mkTimer hB (clock w + d + FEEDBACK_DURATION_MS)]
                 (S hB) (nanoid_calls w)
                 ((trace w ++ [Shown A]) ++ [Shown B])).
  { unfold wB. rewrite (showFeedback_eq B _ HinvA'). now rewrite EA. }
  assert (EB' : forall dt,
             advance dt wB =
             if (dt <? FEEDBACK_DURATION_MS)%N
             then mkWorld (tasks w) (inputText w) (Some B) false (Some hB)
                    (clock w + d + dt)
                    [mkTimer hB (clock w + d + FEEDBACK_DURATION_MS)]
                    (S hB) (nanoid_calls w)
                    ((trace w ++ [Shown A]) ++ [Shown B])
             else mkWorld (tasks w) (inputText w) None false (Some hB)
                    (clock w + d + dt) [] (S hB) (nanoid_calls w)
                    (((trace w ++ [Shown A]) ++ [Shown B]) ++ [Expired hB])).
  { intros dt. unfold wB.
    rewrite (showFeedback_then_wait B dt _ HinvA'). now rewrite EA. }
  repeat split.
  - now rewrite EA.
  - now rewrite EA.
  - now rewrite EB.
  - rewrite EB. simpl. intros [E|[]]. unfold hB in E. lia.
  - now rewrite EB.
  - intros dt. rewrite EB'. now destruct (dt <? FEEDBACK_DURATION_MS)%N.
  - intros dt. rewrite EB', EB.
    destruct (dt <? FEEDBACK_DURATION_MS)%N; simpl; [|reflexivity].
    now rewrite app_nil_r.
  - intros acts. rewrite spent_run; [|assumption|].
    + rewrite EB. unfold fired. simpl.
      rewrite !expirations_app. simpl. rewrite !app_nil_r.
      now apply fired_fresh.
    + rewrite EB. unfold spent, pending, hB. simpl. split; [lia|].
      intros [E|[]]. lia.
  - apply (at_most_one_inv _ HinvA).
  - apply (at_most_one_inv _ HinvA).
  - apply at_most_one_inv. now apply timer_inv_advance.
  - apply at_most_one_inv. now apply timer_inv_advance.
  - apply at_most_one_inv. now apply timer_inv_run.
  - apply at_most_one_inv. now apply timer_inv_run.
Qed.

(** C7. [showFeedback] schedules one timeout, due [FEEDBACK_DURATION_MS] =
    3500 ms after the call. With no further call, the state shows the kind
    for the 3500 ms and the callback has not run; once 3500 ms have passed
    the state shows nothing and the callback has run once; more time
    passing, or anything else happening to the screen, does not run it
    again. When a later call comes before the 3500 ms have passed, the
    callback of this timeout never runs. *)
Theorem showFeedback_expires_once (k : FeedbackType) (w : World) :
  timer_inv w ->
  let w1 := showFeedback k w in
  let h := next_handle w in
  FEEDBACK_DURATION_MS = 3500%N /\
  timers w1 = [mkTimer h (clock w + 3500)] /\
  feedbackTimeoutRef w1 = Some h /\
  (forall dt, (dt < 3500)%N ->
      feedbackType (advance dt w1) = Some k /\
      trace (advance dt w1) = trace w1 /\
      fired h (advance dt w1) = 0) /\
  (forall dt, (3500 <= dt)%N ->
      feedbackType (advance dt w1) = None /\
      trace (advance dt w1) = trace w1 ++ [Expired h] /\
      fired h (advance dt w1) = 1) /\
  (forall dt dt', (3500 <= dt)%N ->
      feedbackType (advance dt' (advance dt w1)) = None /\
      trace (advance dt' (advance dt w1)) = trace (advance dt w1)) /\
  (forall dt acts, (3500 <= dt)%N ->
      fired h (run nanoid acts (advance dt w1)) = 1) /\
  (forall d k' acts, (d < 3500)%N ->
      fired h (run nanoid acts (showFeedback k' (advance d w1))) = 0).
Proof.
  intros Hinv w1 h.
  assert (Hinv1 : timer_inv w1) by now apply timer_inv_showFeedback.
  assert (Hfresh : count_occ Nat.eq_dec (expirations (trace w)) h = 0)
    by exact (fired_fresh _ Hinv).
  assert (Early : forall dt, (dt < 3500)%N ->
             advance dt w1 =
             mkWorld (tasks w) (inputText w) (Some k) false (Some h)
               (clock w + dt) [mkTimer h (clock w + 3500)]
               (S h) (nanoid_calls w) (trace w ++ [Shown k])).
  { intros dt Hdt. unfold w1. rewrite (showFeedback_then_wait k dt w Hinv).
    apply N.ltb_lt in Hdt. unfold FEEDBACK_DURATION_MS. now rewrite Hdt. }
  assert (Late : forall dt, (3500 <= dt)%N ->
             advance dt w1 =
             mkWorld (tasks w) (inputText w) None false (Some h)
               (clock w + dt) [] (S h) (nanoid_calls w)
               ((trace w ++ [Shown k]) ++ [Expired h])).
  { intros dt Hdt. unfold w1. rewrite (showFeedback_then_wait k dt w Hinv).
    apply N.ltb_ge in Hdt. unfold FEEDBACK_DURATION_MS. now rewrite Hdt. }
  assert (E1 : trace w1 = trace w ++ [Shown k])
    by apply showFeedback_trace.
  assert (Once : count_occ Nat.eq_dec
                   (expirations ((trace w ++ [Shown k]) ++ [Expired h])) h
                 = 1).
  { rewrite !expirations_app, !count_occ_app. simpl. rewrite Hfresh.
    destruct (Nat.eq_dec h h); [reflexivity|contradiction]. }
  split; [reflexivity|].
  split; [unfold w1; now rewrite (showFeedback_eq k _ Hinv)|].
  split; [unfold w1; now rewrite (showFeedback_eq k _ Hinv)|].
  split; [|split; [|split; [|split]]].
  - intros dt Hdt. rewrite (Early dt Hdt), E1. simpl.
    repeat split. unfold fired. simpl.
    rewrite expirations_app. simpl. now rewrite app_nil_r.
  - intros dt Hdt. rewrite (Late dt Hdt), E1. simpl.
    repeat split. exact Once.
  - intros dt dt' Hdt. rewrite (Late dt Hdt).
    rewrite advance_idle by reflexivity. now simpl.
  - intros dt acts Hdt. rewrite spent_run.
    + rewrite (Late dt Hdt). exact Once.
    + now apply timer_inv_advance.
    + rewrite (Late dt Hdt). unfold spent, pending. simpl. split; [lia|tauto].
  - intros d k' acts Hd.
    assert (Hinv2 : timer_inv (advance d w1)) by now apply timer_inv_advance.
    rewrite spent_run.
    + rewrite (showFeedback_eq k' _ Hinv2), (Early d Hd).
      unfold fired. simpl. rewrite !expirations_app. simpl.
      now rewrite !app_nil_r.
    + now apply timer_inv_showFeedback.
    + rewrite (showFeedback_eq k' _ Hinv2), (Early d Hd).
      unfold spent, pending. simpl. split; [lia|].
      intros [E|[]]. lia.
Qed.

(** C8. Every call of [showFeedback] leaves the fallback flag
    [feedbackImageError] false and shows the kind it was called with,
    whatever the flag was: a failed image load before the call changes
    nothing in the result of the call. A failed load while a kind is shown
    sets the flag and nothing else; when the timeout then runs, the flag is
    false again, and so it is after a new call. *)
Theorem showFeedback_resets_image_error
    (k k' : FeedbackType) (d1 d2 : N) (w : World) :
  timer_inv w -> (d1 < 3500)%N -> (3500 <= d1 + d2)%N ->
  let w1 := advance d1 (showFeedback k w) in
  let w2 := onImageError w1 in
  (feedbackImageError (showFeedback k w) = false /\
   feedbackType (showFeedback k w) = Some k /\
   showFeedback k (onImageError w) = showFeedback k w) /\
  (feedbackImageError w2 = true /\
   setFeedbackImageError (feedbackImageError w1) w2 = w1) /\
  (feedbackImageError (advance d2 w2) = false /\
   feedbackType (advance d2 w2) = None) /\
  (feedbackImageError (showFeedback k' w2) = false /\
   feedbackType (showFeedback k' w2) = Some k').
Proof.
  intros Hinv Hd1 Hd2 w1 w2.
  assert (E1 : w1 =
               mkWorld (tasks w) (inputText w) (Some k) false
                 (Some (next_handle w)) (clock w + d1)
                 [mkTimer (next_handle w) (clock w + 3500)]
                 (S (next_handle w)) (nanoid_calls w)
                 (trace w ++ [Shown k])).
  { unfold w1. rewrite (showFeedback_then_wait k d1 w Hinv).
    apply N.ltb_lt in Hd1. unfold FEEDBACK_DURATION_MS. now rewrite Hd1. }
  split; [|split; [|split]].
  - rewrite showFeedback_feedbackImageError, showFeedback_feedbackType.
    repeat split. unfold onImageError. now worlds.
  - unfold w2. rewrite E1. now split.
  - unfold w2. rewrite E1. unfold onImageError. simpl.
    erewrite advance_late; [now split|reflexivity|simpl; lia].
  - now rewrite showFeedback_feedbackImageError, showFeedback_feedbackType.
Qed.

End Controller.

(** * The task store *)

Lemma setTasks_same (w : World) : setTasks (tasks w) w = w.
Proof. now destruct w. Qed.

Lemma NoDup_map_eq {A B} (f : A -> B) (l : list A) (x y : A) :
  NoDup (map f l) -> In x l -> In y l -> f x = f y -> x = y.
Proof.
  induction l as [|a l IH]; simpl; intros Hnd Hx Hy E; [contradiction|].
  inversion Hnd as [|? ? Hout Hnd']; subst.
  destruct Hx as [->|Hx], Hy as [->|Hy].
  - reflexivity.
  - exfalso. apply Hout. rewrite E. now apply in_map.
  - exfalso. apply Hout. rewrite <- E. now apply in_map.
  - now apply IH.
Qed.

(** Toggling the one task that carries the id. *)
Lemma handleToggleComplete_at (l1 l2 : list TaskType) (t : TaskType)
    (w : World) :
  tasks w = l1 ++ t :: l2 ->
  (forall u, In u l1 -> id u <> id t) ->
  (forall u, In u l2 -> id u <> id t) ->
  handleToggleComplete (id t) w =
  setTasks (l1 ++ toggled t :: l2)
    (showFeedback (if completed t then Uncompleted else Completed) w).
Proof.
  intros E H1 H2. unfold handleToggleComplete. rewrite E.
  rewrite map_app. simpl.
  rewrite (map_toggle_absent _ _ H1), (map_toggle_absent _ _ H2).
  rewrite str_eqb_refl, (find_app_absent _ _ _ H1). simpl.
  rewrite str_eqb_refl. destruct t as [ti tx [|]]; reflexivity.
Qed.

Lemma handleToggleComplete_inputText (i : jsstring) (w : World) :
  inputText (handleToggleComplete i w) = inputText w.
Proof.
  unfold handleToggleComplete. rewrite setTasks_eq. simpl.
  destruct (find _ _) as [t|]; [destruct (completed t)|];
    apply showFeedback_inputText.
Qed.

Section TaskStore.

Variable nanoid : nat -> jsstring.

(** C2, as the code has it. For an id that no task carries,
    [handleToggleComplete] leaves the tasks (and the input text) as they
    are and calls [showFeedback 'uncompleted']: the whole effect is that of
    that one call. *)
Theorem handleToggleComplete_missing (i : jsstring) (w : World) :
  (forall t, In t (tasks w) -> id t <> i) ->
  let w' := handleToggleComplete i w in
  w' = showFeedback Uncompleted w /\
  tasks w' = tasks w /\
  inputText w' = inputText w /\
  trace w' = trace w ++ [Shown Uncompleted] /\
  feedbackType w' = Some Uncompleted.
Proof.
  intros Habs w'.
  assert (E : w' = showFeedback Uncompleted w).
  { unfold w', handleToggleComplete.
    rewrite (map_toggle_absent _ _ Habs), (find_absent _ _ Habs).
    rewrite <- (showFeedback_tasks Uncompleted w). apply setTasks_same. }
  rewrite E. repeat split.
  - apply showFeedback_tasks.
  - apply showFeedback_inputText.
  - apply showFeedback_trace.
  - apply showFeedback_feedbackType.
Qed.


(** C4. When the input text is empty or made of white space only,
    [handleAddTask] returns at once: the state is the one before, so the
    tasks are unchanged and [showFeedback] is not called. *)
Theorem handleAddTask_blank_noop (w : World) :
  forallb isWhiteSpace (inputText w) = true ->
  let w' := handleAddTask nanoid w in
  w' = w /\
  tasks w' = tasks w /\
  shown (trace w') = shown (trace w) /\
  feedbackType w' = feedbackType w.
Proof.
  intros Hws w'. apply trim_nil in Hws.
  unfold w'. rewrite (handleAddTask_blank nanoid w Hws). now repeat split.
Qed.

(** C10. After [handleAddTask], the stored input text is empty when the
    trimmed input text was not empty, and is the text it was when the
    input text was empty or white space only. *)
Theorem handleAddTask_inputText (w : World) :
  (trim (inputText w) <> [] ->
   inputText (handleAddTask nanoid w) = []) /\
  (forallb isWhiteSpace (inputText w) = true ->
   inputText (handleAddTask nanoid w) = inputText w) /\
  inputText (handleAddTask nanoid w) =
  if forallb isWhiteSpace (inputText w) then inputText w else [].
Proof.
  assert (Hyes : trim (inputText w) <> [] ->
                 inputText (handleAddTask nanoid w) = []).
  { intros Htext. rewrite (handleAddTask_text nanoid w Htext). now worlds. }
  assert (Hno : forallb isWhiteSpace (inputText w) = true ->
                inputText (handleAddTask nanoid w) = inputText w).
  { intros Hws. apply trim_nil in Hws.
    now rewrite (handleAddTask_blank nanoid w Hws). }
  repeat split; try assumption.
  destruct (forallb isWhiteSpace (inputText w)) eqn:E.
  - now apply Hno.
  - apply Hyes. intros Ht. apply trim_nil in Ht. congruence.
Qed.

End TaskStore.

(** C5. With ids that identify tasks, for a task [t] of the list: after
    one [handleToggleComplete (id t)] the task stands in its place with the
    flag flipped and [showFeedback] was called with 'completed' when the
    flag became true, with 'uncompleted' when it became false; after a
    second call the list is the one before the first, and the second call
    signalled the other kind. *)
Theorem handleToggleComplete_twice (t : TaskType) (w : World) :
  NoDup (map id (tasks w)) -> In t (tasks w) ->
  let w1 := handleToggleComplete (id t) w in
  let w2 := handleToggleComplete (id t) w1 in
  let first := if completed t then Uncompleted else Completed in
  let second := if completed t then Completed else Uncompleted in
  (exists l1 l2,
      tasks w = l1 ++ t :: l2 /\
      tasks w1 = l1 ++ toggled t :: l2 /\
      tasks w2 = l1 ++ t :: l2) /\
  completed (toggled t) = negb (completed t) /\
  tasks w2 = tasks w /\
  (first = Completed <-> completed (toggled t) = true) /\
  (first = Uncompleted <-> completed (toggled t) = false) /\
  trace w1 = trace w ++ [Shown first] /\
  feedbackType w1 = Some first /\
  trace w2 = trace w ++ [Shown first; Shown second] /\
  feedbackType w2 = Some second.
Proof.
  intros Hnd Hin w1 w2 first second.
  destruct (split_at_id _ _ Hnd Hin) as (l1 & l2 & E & H1 & H2).
  assert (E1 : w1 = setTasks (l1 ++ toggled t :: l2) (showFeedback first w))
    by exact (handleToggleComplete_at l1 l2 t w E H1 H2).
  assert (T1 : tasks w1 = l1 ++ toggled t :: l2)
    by (rewrite E1; now rewrite setTasks_eq).
  assert (E2 : w2 = setTasks (l1 ++ toggled (toggled t) :: l2)
                      (showFeedback second w1)).
  { unfold w2, second.
    replace (if completed t then Completed else Uncompleted)
      with (if completed (toggled t) then Uncompleted else Completed)
      by (destruct t as [ti tx [|]]; reflexivity).
    exact (handleToggleComplete_at l1 l2 (toggled t) w1 T1 H1 H2). }
  rewrite toggled_involutive in E2.
  assert (T2 : tasks w2 = l1 ++ t :: l2)
    by (rewrite E2; now rewrite setTasks_eq).
  split; [now exists l1, l2|].
  split; [reflexivity|].
  split; [congruence|].
  split; [unfold first; destruct t as [ti tx [|]]; simpl; split; congruence|].
  split; [unfold first; destruct t as [ti tx [|]]; simpl; split; congruence|].
  assert (Tr1 : trace w1 = trace w ++ [Shown first])
    by (rewrite E1; now worlds).
  split; [exact Tr1|].
  split; [rewrite E1; now worlds|].
  split; [|rewrite E2; now worlds].
  rewrite E2. worlds. rewrite Tr1, <- app_assoc. reflexivity.
Qed.

(** C9. With ids that identify tasks, for a task [t] of the list,
    [handleToggleComplete (id t)] puts [t] with its flag flipped, same id
    and same text, in the place of [t], and leaves the rest: same length,
    same ids and texts in the same order, every other task unchanged in its
    place, the input text unchanged. *)
Theorem handleToggleComplete_frame (t : TaskType) (w : World) :
  NoDup (map id (tasks w)) -> In t (tasks w) ->
  let w' := handleToggleComplete (id t) w in
  (exists l1 l2,
      tasks w = l1 ++ t :: l2 /\ tasks w' = l1 ++ toggled t :: l2) /\
  (id (toggled t) = id t /\ text (toggled t) = text t /\
   completed (toggled t) = negb (completed t)) /\
  length (tasks w') = length (tasks w) /\
  map id (tasks w') = map id (tasks w) /\
  map text (tasks w') = map text (tasks w) /\
  (forall n u, nth_error (tasks w) n = Some u -> u <> t ->
               nth_error (tasks w') n = Some u) /\
  (forall n, nth_error (tasks w) n = Some t ->
             nth_error (tasks w') n = Some (toggled t)) /\
  inputText w' = inputText w.
Proof.
  intros Hnd Hin w'.
  destruct (split_at_id _ _ Hnd Hin) as (l1 & l2 & E & H1 & H2).
  assert (T : tasks w' =
              map (fun u => if str_eqb (id u) (id t) then toggled u else u)
                  (tasks w))
    by apply handleToggleComplete_tasks.
  split.
  { exists l1, l2. split; [exact E|].
    unfold w'. rewrite (handleToggleComplete_at l1 l2 t w E H1 H2).
    now rewrite setTasks_eq. }
  split; [now repeat split|].
  split; [rewrite T; apply length_map|].
  split; [rewrite T; apply map_id_toggle|].
  split.
  { rewrite T, map_map. apply map_ext. intros u.
    now destruct (str_eqb (id u) (id t)). }
  split; [|split].
  - intros n u Hn Hu. rewrite T, nth_error_map, Hn. simpl.
    destruct (str_eqb (id u) (id t)) eqn:Eid; [|reflexivity].
    exfalso. apply Hu. apply str_eqb_eq in Eid.
    apply (NoDup_map_eq id (tasks w)); auto.
    now apply nth_error_In with n.
  - intros n Hn. rewrite T, nth_error_map, Hn. simpl.
    now rewrite str_eqb_refl.
  - apply handleToggleComplete_inputText.
Qed.

(** C6. [handleDelete i] keeps exactly the tasks whose id is not [i], in
    their order and unchanged; with ids that identify tasks, a task with id
    [i] that was in the list is the one task removed, and when no task has
    id [i] the list is unchanged; in every case [showFeedback 'deleted'] is
    called. *)
Theorem handleDelete_removes (i : jsstring) (w : World) :
  NoDup (map id (tasks w)) ->
  let w' := handleDelete i w in
  (forall u, In u (tasks w') <-> In u (tasks w) /\ id u <> i) /\
  subseq (tasks w') (tasks w) /\
  (forall t, In t (tasks w) -> id t = i ->
     exists l1 l2,
       tasks w = l1 ++ t :: l2 /\ tasks w' = l1 ++ l2 /\
       length (tasks w) = S (length (tasks w'))) /\
  ((forall t, In t (tasks w) -> id t <> i) ->
   tasks w' = tasks w /\ trace w' = trace w ++ [Shown Deleted]) /\
  trace w' = trace w ++ [Shown Deleted] /\
  feedbackType w' = Some Deleted.
Proof.
  intros Hnd w'.
  assert (T : tasks w' = filter (fun t => negb (str_eqb (id t) i)) (tasks w))
    by apply handleDelete_tasks.
  assert (Tr : trace w' = trace w ++ [Shown Deleted])
    by (unfold w', handleDelete; now worlds).
  split.
  { intros u. rewrite T, filter_In, negb_true_iff, str_eqb_neq. tauto. }
  split; [rewrite T; apply subseq_filter|].
  split.
  { intros t Hin <-.
    destruct (split_at_id _ _ Hnd Hin) as (l1 & l2 & E & H1 & H2).
    exists l1, l2. split; [exact E|].
    assert (T' : tasks w' = l1 ++ l2).
    { rewrite T, E, filter_app. simpl.
      rewrite str_eqb_refl. simpl.
      now rewrite (filter_absent _ _ H1), (filter_absent _ _ H2). }
    split; [exact T'|].
    rewrite T', E, !length_app. simpl. lia. }
  split.
  { intros Habs. split; [|exact Tr]. rewrite T. now apply filter_absent. }
  split; [exact Tr|].
  unfold w', handleDelete. now worlds.
Qed.

(** * The sample screen *)

Example trim_wash_dishes : trim wash_dishes = js "wash dishes".
Proof. reflexivity. Qed.

Example trim_blank_text : trim blank_text = [].
Proof. reflexivity. Qed.

Example one_task_tasks : tasks one_task = [wash_task].
Proof. reflexivity. Qed.

Example two_tasks_tasks : tasks two_tasks = [wash_task; feed_task].
Proof. reflexivity. Qed.

(** Add, complete, delete: the list and the feedback after each step. *)
Example add_toggle_delete :
  let w1 := one_task in
  let w2 := handleToggleComplete (js "id") w1 in
  let w3 := handleDelete (js "id") w2 in
  (tasks w1 = [mkTask (js "id") (js "wash dishes") false] /\
   feedbackType w1 = Some Added) /\
  (tasks w2 = [mkTask (js "id") (js "wash dishes") true] /\
   feedbackType w2 = Some Completed) /\
  (tasks w3 = [] /\ feedbackType w3 = Some Deleted) /\
  shown (trace w3) = [Added; Completed; Deleted].
Proof. repeat split. Qed.

(** Three quick actions, then silence: only the last timeout runs. *)
Example only_last_timeout_runs :
  trace (run sample_nanoid
           [PressToggle (js "id"); Elapse 3499; PressDelete (js "id");
            Elapse 3499; Elapse 1; Elapse 5000] one_task) =
  [Shown Added; Shown Completed; Shown Deleted; Expired 3].
Proof. reflexivity. Qed.

Lemma timer_inv_one_task : timer_inv one_task.
Proof. unfold one_task. apply timer_inv_run, timer_inv_init. Qed.

Lemma ids_unique_two_tasks : NoDup (map id (tasks two_tasks)).
Proof.
  change (NoDup [js "id"; js "idx"]).
  repeat constructor; simpl; intros H; decompose [or] H;
    try discriminate; contradiction.
Qed.

Lemma no_ghost_in_one_task (t : TaskType) :
  In t (tasks one_task) -> id t <> js "ghost".
Proof. intros [<-|[]]. discriminate. Qed.

(** * The claims on the sample screen *)

(** C2, as stated, fails: nobody has the id "ghost", and toggling it
    calls [showFeedback 'uncompleted']. *)
Lemma handleToggleComplete_missing_shows_feedback :
  let w := one_task in
  let w' := handleToggleComplete (js "ghost") w in
  (forall t, In t (tasks w) -> id t <> js "ghost") /\
  tasks w' = tasks w /\
  shown (trace w) = [Added] /\
  shown (trace w') = [Added; Uncompleted] /\
  feedbackType w' = Some Uncompleted /\
  ~ (tasks w' = tasks w /\ shown (trace w') = shown (trace w)).
Proof.
  split; [exact no_ghost_in_one_task|].
  repeat split. intros [_ H]. discriminate H.
Qed.

Lemma showFeedback_supersedes_witness :
  timer_inv one_task /\ (2000 < FEEDBACK_DURATION_MS)%N /\
  let wB := showFeedback Completed
              (advance 2000 (showFeedback Added one_task)) in
  feedbackType wB = Some Completed /\
  feedbackType (advance 3499 wB) = Some Completed /\
  feedbackType (advance 3500 wB) = None /\
  trace (advance 3500 wB) = trace wB ++ [Expired 3] /\
  fired 2 (run sample_nanoid [Elapse 9000] wB) = 0.
Proof.
  split; [exact timer_inv_one_task|]. split; [reflexivity|].
  destruct (showFeedback_supersedes sample_nanoid Added Completed 2000
              one_task timer_inv_one_task eq_refl)
    as (_ & (_ & _ & HB) & Hshow & Htrace & Hfired & _).
  split; [exact HB|].
  split; [exact (Hshow 3499%N)|].
  split; [exact (Hshow 3500%N)|].
  split; [exact (Htrace 3500%N)|].
  exact (Hfired [Elapse 9000]).
Defined.

Lemma showFeedback_expires_once_witness :
  timer_inv one_task /\
  let w1 := showFeedback Deleted one_task in
  timers w1 = [mkTimer 2 3500] /\
  feedbackType (advance 3499 w1) = Some Deleted /\
  feedbackType (advance 3500 w1) = None /\
  fired 2 (advance 3500 w1) = 1 /\
  fired 2 (run sample_nanoid [Elapse 3500; Elapse 3500] (advance 3500 w1))
  = 1 /\
  fired 2 (run sample_nanoid [Elapse 9000]
             (showFeedback Added (advance 3499 w1))) = 0.
Proof.
  split; [exact timer_inv_one_task|].
  destruct (showFeedback_expires_once sample_nanoid Deleted one_task
              timer_inv_one_task)
    as (_ & Hq & _ & Hearly & Hlate & _ & Honce & Hcancel).
  split; [exact Hq|].
  split; [exact (proj1 (Hearly 3499%N eq_refl))|].
  assert (Hle : (3500 <= 3500)%N) by discriminate.
  split; [exact (proj1 (Hlate 3500%N Hle))|].
  split; [exact (proj2 (proj2 (Hlate 3500%N Hle)))|].
  split; [exact (Honce 3500%N [Elapse 3500; Elapse 3500] Hle)|].
  exact (Hcancel 3499%N Added [Elapse 9000] eq_refl).
Defined.

Lemma showFeedback_resets_image_error_witness :
  timer_inv one_task /\ (1000 < 3500)%N /\ (3500 <= 1000 + 2500)%N /\
  let w2 := onImageError (advance 1000 (showFeedback Deleted one_task)) in
  feedbackImageError w2 = true /\
  feedbackImageError (advance 2500 w2) = false /\
  feedbackImageError (showFeedback Added w2) = false /\
  feedbackType (showFeedback Added w2) = Some Added.
Proof.
  assert (Hle : (3500 <= 1000 + 2500)%N) by discriminate.
  split; [exact timer_inv_one_task|].
  split; [reflexivity|]. split; [exact Hle|].
  destruct (showFeedback_resets_image_error Deleted Added 1000 2500
              one_task timer_inv_one_task eq_refl Hle)
    as (_ & (Hset & _) & (Hfire & _) & (Hnew & Hkind)).
  split; [exact Hset|].
  split; [exact Hfire|].
  split; [exact Hnew|exact Hkind].
Defined.

Lemma handleToggleComplete_missing_witness :
  (forall t, In t (tasks one_task) -> id t <> js "ghost") /\
  let w' := handleToggleComplete (js "ghost") one_task in
  tasks w' = [wash_task] /\
  trace w' = [Shown Added; Shown Uncompleted] /\
  feedbackType w' = Some Uncompleted.
Proof.
  split; [exact no_ghost_in_one_task|].
  destruct (handleToggleComplete_missing (js "ghost") one_task
              no_ghost_in_one_task)
    as (_ & Ht & _ & Htr & Hk).
  split; [exact Ht|]. split; [exact Htr|exact Hk].
Defined.



Lemma handleAddTask_blank_noop_witness :
  let w := setInputText blank_text one_task in
  forallb isWhiteSpace (inputText w) = true /\
  handleAddTask sample_nanoid w = w /\
  shown (trace (handleAddTask sample_nanoid w)) = [Added].
Proof.
  split; [reflexivity|].
  destruct (handleAddTask_blank_noop sample_nanoid
              (setInputText blank_text one_task) eq_refl)
    as (Hsame & _ & Hshown & _).
  split; [exact Hsame|exact Hshown].
Defined.

Lemma handleAddTask_inputText_witness :
  (trim (inputText (setInputText wash_dishes init)) <> [] /\
   inputText (handleAddTask sample_nanoid (setInputText wash_dishes init))
   = []) /\
  (forallb isWhiteSpace (inputText (setInputText blank_text init)) = true /\
   inputText (handleAddTask sample_nanoid (setInputText blank_text init))
   = blank_text).
Proof.
  split.
  - assert (Htext : trim (inputText (setInputText wash_dishes init)) <> [])
      by discriminate.
    split; [exact Htext|].
    exact (proj1 (handleAddTask_inputText sample_nanoid
                    (setInputText wash_dishes init)) Htext).
  - split; [reflexivity|].
    exact (proj1 (proj2 (handleAddTask_inputText sample_nanoid
                           (setInputText blank_text init))) eq_refl).
Defined.

Lemma handleToggleComplete_twice_witness :
  NoDup (map id (tasks two_tasks)) /\ In feed_task (tasks two_tasks) /\
  let w1 := handleToggleComplete (js "idx") two_tasks in
  let w2 := handleToggleComplete (js "idx") w1 in
  tasks w2 = tasks two_tasks /\
  trace w2 = trace two_tasks ++ [Shown Completed; Shown Uncompleted].
Proof.
  assert (Hin : In feed_task (tasks two_tasks)) by (right; left; reflexivity).
  split; [exact ids_unique_two_tasks|]. split; [exact Hin|].
  destruct (handleToggleComplete_twice feed_task two_tasks
              ids_unique_two_tasks Hin)
    as (_ & _ & Hback & _ & _ & _ & _ & Htr & _).
  split; [exact Hback|exact Htr].
Defined.

Lemma handleToggleComplete_frame_witness :
  NoDup (map id (tasks two_tasks)) /\ In feed_task (tasks two_tasks) /\
  let w' := handleToggleComplete (js "idx") two_tasks in
  length (tasks w') = 2 /\
  nth_error (tasks w') 0 = Some wash_task /\
  nth_error (tasks w') 1 = Some (toggled feed_task).
Proof.
  assert (Hin : In feed_task (tasks two_tasks)) by (right; left; reflexivity).
  split; [exact ids_unique_two_tasks|]. split; [exact Hin|].
  destruct (handleToggleComplete_frame feed_task two_tasks
              ids_unique_two_tasks Hin)
    as (_ & _ & Hlen & _ & _ & Hrest & Hself & _).
  split; [exact Hlen|].
  split; [|exact (Hself 1 eq_refl)].
  apply (Hrest 0 wash_task eq_refl). discriminate.
Defined.

Lemma handleDelete_removes_witness :
  NoDup (map id (tasks two_tasks)) /\
  let w' := handleDelete (js "id") two_tasks in
  subseq (tasks w') (tasks two_tasks) /\
  (exists l1 l2,
      tasks two_tasks = l1 ++ wash_task :: l2 /\ tasks w' = l1 ++ l2 /\
      length (tasks two_tasks) = S (length (tasks w'))) /\
  trace w' = trace two_tasks ++ [Shown Deleted].
Proof.
  split; [exact ids_unique_two_tasks|].
  destruct (handleDelete_removes (js "id") two_tasks ids_unique_two_tasks)
    as (_ & Hsub & Hone & _ & Htr & _).
  split; [exact Hsub|].
  split; [|exact Htr].
  apply Hone; [left|]; reflexivity.
Defined.

(** * More on the screen *)

(** ** [trim] *)

Lemma trimStart_clean (s : jsstring) : starts_clean (trimStart s) = true.
Proof.
  induction s as [|c s IH]; simpl; [reflexivity|].
  destruct (isWhiteSpace c) eqn:E; [exact IH|]. simpl. now rewrite E.
Qed.

Lemma trimStart_fixed (s : jsstring) :
  starts_clean s = true -> trimStart s = s.
Proof.
  destruct s as [|c s]; simpl; [reflexivity|].
  now destruct (isWhiteSpace c).
Qed.

(** What [trimStart] drops is white space, and it drops it in front. *)
Lemma trimStart_split (s : jsstring) :
  exists pre, s = pre ++ trimStart s /\ forallb isWhiteSpace pre = true.
Proof.
  induction s as [|c s (pre & E & Hpre)]; simpl.
  - now exists [].
  - destruct (isWhiteSpace c) eqn:Ec.
    + exists (c :: pre). simpl. rewrite Ec, Hpre. split; [|reflexivity].
      now rewrite <- E.
    + now exists [].
Qed.

Lemma starts_clean_prefix (a b : jsstring) :
  starts_clean (a ++ b) = true -> a <> [] -> starts_clean a = true.
Proof. destruct a as [|c a]; simpl; [congruence|trivial]. Qed.

Lemma trim_starts_clean (s : jsstring) : starts_clean (trim s) = true.
Proof.
  unfold trim, trimEnd.
  destruct (trimStart_split (rev (trimStart s))) as (pre & E & _).
  remember (trimStart (rev (trimStart s))) as b.
  apply (f_equal (@rev N)) in E. rewrite rev_involutive, rev_app_distr in E.
  destruct (rev b) as [|c r] eqn:Eb; [reflexivity|].
  apply (starts_clean_prefix (c :: r) (rev pre)); [|discriminate].
  rewrite <- E. apply trimStart_clean.
Qed.

Lemma trim_ends_clean (s : jsstring) : starts_clean (rev (trim s)) = true.
Proof.
  unfold trim, trimEnd. rewrite rev_involutive. apply trimStart_clean.
Qed.

Lemma trim_fixed (s : jsstring) :
  starts_clean s = true -> starts_clean (rev s) = true -> trim s = s.
Proof.
  intros H1 H2. unfold trim, trimEnd.
  rewrite (trimStart_fixed s H1), (trimStart_fixed (rev s) H2).
  apply rev_involutive.
Qed.

Lemma trim_idempotent (s : jsstring) : trim (trim s) = trim s.
Proof. apply trim_fixed; [apply trim_starts_clean|apply trim_ends_clean]. Qed.

(** ** The invariants hold throughout *)

Lemma shown_app (a b : list Event) : shown (a ++ b) = shown a ++ shown b.
Proof.
  induction a as [|[k|h] a IH]; simpl; [reflexivity| |exact IH].
  now rewrite IH.
Qed.

Lemma last_shown_timing (w w' : World) :
  timing w = timing w' -> last_shown w = last_shown w'.
Proof.
  unfold timing, last_shown. intros H. injection H as _ _ _ _ _ H.
  now rewrite H.
Qed.

Lemma display_inv_init : display_inv init.
Proof. constructor; simpl; [tauto|discriminate]. Qed.

Lemma display_inv_timing (w w' : World) :
  timing w = timing w' -> display_inv w -> display_inv w'.
Proof.
  intros H [Hw Hl]. pose proof (last_shown_timing _ _ H) as El.
  unfold timing in H. injection H as Hf _ Hc Hq _ _.
  constructor.
  - rewrite <- Hq, <- Hc. exact Hw.
  - rewrite <- Hf, <- El. exact Hl.
Qed.

Lemma display_inv_showFeedback (k : FeedbackType) (w : World) :
  timer_inv w -> display_inv (showFeedback k w).
Proof.
  intros Hinv. rewrite (showFeedback_eq k _ Hinv). constructor; simpl.
  - intros tm [<-|[]]. simpl. lia.
  - intros k' [= <-]. unfold last_shown. simpl.
    rewrite shown_app, map_app. simpl. apply last_last.
Qed.

Lemma display_inv_advance (dt : N) (w : World) :
  timer_inv w -> display_inv w -> display_inv (advance dt w).
Proof.
  intros Hinv [Hw Hl].
  destruct (timer_inv_cases _ Hinv) as [[Hq _]|(h & d & Hq & _)].
  - rewrite (advance_idle dt _ Hq). constructor; simpl; [tauto|exact Hl].
  - destruct (N.lt_ge_cases (clock w + dt) d) as [Hc|Hc].
    + rewrite (advance_early dt _ _ _ Hq Hc). constructor; simpl; [|exact Hl].
      intros tm [<-|[]]. simpl.
      specialize (Hw (mkTimer h d)). rewrite Hq in Hw.
      specialize (Hw (or_introl eq_refl)). simpl in Hw. lia.
    + rewrite (advance_late dt _ _ _ Hq Hc).
      constructor; simpl; [tauto|discriminate].
Qed.

Section MoreScreen.

Variable nanoid : nat -> jsstring.

Lemma display_inv_step (a : Action) (w : World) :
  timer_inv w -> display_inv w -> display_inv (step nanoid a w).
Proof.
  intros Hinv Hd.
  destruct (step_timing nanoid a w) as [H|[[k H]|[dt H]]];
    symmetry in H; apply (display_inv_timing _ _ H).
  - assumption.
  - now apply display_inv_showFeedback.
  - now apply display_inv_advance.
Qed.

Lemma reachable_display_inv (w : World) :
  reachable nanoid w -> timer_inv w /\ display_inv w.
Proof.
  intros [acts ->].
  assert (G : forall w0, timer_inv w0 -> display_inv w0 ->
                         timer_inv (run nanoid acts w0) /\
                         display_inv (run nanoid acts w0)).
  { induction acts as [|a acts IH]; intros w0 H1 H2; simpl; [now split|].
    apply IH; [now apply timer_inv_step|now apply display_inv_step]. }
  apply G; [exact timer_inv_init|exact display_inv_init].
Qed.

Lemma text_inv_step (a : Action) (w : World) :
  text_inv w -> text_inv (step nanoid a w).
Proof.
  unfold text_inv. intros Hinv. destruct a as [s| |i|i| |dt]; simpl.
  - worlds. exact Hinv.
  - destruct (list_eq_dec N.eq_dec (trim (inputText w)) []) as [E|E].
    + now rewrite (handleAddTask_blank _ _ E).
    + rewrite (handleAddTask_text _ _ E). worlds.
      intros t Ht. apply in_app_or in Ht. destruct Ht as [Ht|[<-|[]]].
      * now apply Hinv.
      * simpl. split; [exact E|apply trim_idempotent].
  - rewrite handleToggleComplete_tasks.
    intros t Ht. apply in_map_iff in Ht. destruct Ht as (u & <- & Hu).
    destruct (str_eqb (id u) i); simpl; now apply Hinv.
  - rewrite handleDelete_tasks. intros t Ht. apply filter_In in Ht.
    now apply Hinv.
  - unfold onImageError. worlds. exact Hinv.
  - pose proof (advance_store dt w) as Hs. unfold store in Hs.
    injection Hs as Ht _ _. now rewrite Ht.
Qed.

Lemma text_inv_run (acts : list Action) (w : World) :
  text_inv w -> text_inv (run nanoid acts w).
Proof.
  revert w. induction acts as [|a acts IH]; intros w Hinv; simpl.
  - assumption.
  - apply IH. now apply text_inv_step.
Qed.

End MoreScreen.

Lemma run_due_timing (target : N) (q : list Timer) (w w' : World) :
  feedbackType w = feedbackType w' ->
  feedbackTimeoutRef w = feedbackTimeoutRef w' ->
  clock w = clock w' ->
  next_handle w = next_handle w' ->
  trace w = trace w' ->
  timing (run_due target q w) = timing (run_due target q w').
Proof.
  revert w w'. induction q as [|tm q IH]; intros w w' H1 H2 H3 H4 H5;
    open_world w; open_world' w'; subst.
  - reflexivity.
  - destruct (due tm <=? target)%N; [|reflexivity].
    apply IH; reflexivity.
Qed.

(** Time passing reads and writes the controller part of the state only. *)
Lemma advance_timing (dt : N) (w w' : World) :
  timing w = timing w' ->
  timing (advance dt w) = timing (advance dt w').
Proof.
  unfold timing at 1 2. intros H. injection H as H1 H2 H3 H4 H5 H6.
  unfold advance. rewrite <- H3, <- H4.
  pose proof (run_due_timing (clock w + dt) (timers w) w w' H1 H2 H3 H5 H6)
    as Ht.
  destruct (run_due _ _ w), (run_due _ _ w').
  unfold timing in *; simpl in *. now injection Ht as -> -> _ -> -> ->.
Qed.

(** After anything that amounts to a [showFeedback k], the kind is on
    display for the next 3500 ms and gone after. *)
Lemma window_after (k : FeedbackType) (w w' : World) :
  timer_inv w -> timing w' = timing (showFeedback k w) ->
  on_display_for_window k w'.
Proof.
  intros Hinv H. split.
  - unfold timing in H. injection H as H _ _ _ _ _.
    rewrite H. apply showFeedback_feedbackType.
  - intros dt. pose proof (advance_timing dt _ _ H) as Ha.
    unfold timing in Ha. injection Ha as Ha _ _ _ _ _. rewrite Ha.
    rewrite (showFeedback_then_wait k dt w Hinv).
    now destruct (dt <? FEEDBACK_DURATION_MS)%N.
Qed.

Lemma filter_id_twice (i : jsstring) (l : list TaskType) :
  filter (fun t => negb (str_eqb (id t) i))
    (filter (fun t => negb (str_eqb (id t) i)) l) =
  filter (fun t => negb (str_eqb (id t) i)) l.
Proof.
  induction l as [|x l IH]; simpl; [reflexivity|].
  destruct (negb (str_eqb (id x) i)) eqn:E; simpl; [|exact IH].
  now rewrite E, IH.
Qed.

Lemma filter_map_toggle (i j : jsstring) (l : list TaskType) :
  filter (fun t => negb (str_eqb (id t) j))
    (map (fun t => if str_eqb (id t) i then toggled t else t) l) =
  map (fun t => if str_eqb (id t) i then toggled t else t)
    (filter (fun t => negb (str_eqb (id t) j)) l).
Proof.
  induction l as [|x l IH]; simpl; [reflexivity|].
  assert (E : id (if str_eqb (id x) i then toggled x else x) = id x)
    by now destruct (str_eqb (id x) i).
  rewrite E. destruct (negb (str_eqb (id x) j)); simpl; now rewrite IH.
Qed.

Lemma map_toggle_swap (i j : jsstring) (l : list TaskType) :
  map (fun t => if str_eqb (id t) i then toggled t else t)
    (map (fun t => if str_eqb (id t) j then toggled t else t) l) =
  map (fun t => if str_eqb (id t) j then toggled t else t)
    (map (fun t => if str_eqb (id t) i then toggled t else t) l).
Proof.
  rewrite !map_map. apply map_ext. intros t.
  destruct (str_eqb (id t) i) eqn:Ei, (str_eqb (id t) j) eqn:Ej; simpl;
    rewrite ?Ei, ?Ej; reflexivity.
Qed.

Lemma filter_id_swap (i j : jsstring) (l : list TaskType) :
  filter (fun t => negb (str_eqb (id t) i))
    (filter (fun t => negb (str_eqb (id t) j)) l) =
  filter (fun t => negb (str_eqb (id t) j))
    (filter (fun t => negb (str_eqb (id t) i)) l).
Proof.
  induction l as [|x l IH]; simpl; [reflexivity|].
  destruct (negb (str_eqb (id x) i)) eqn:Ei,
           (negb (str_eqb (id x) j)) eqn:Ej; simpl;
    rewrite ?Ei, ?Ej, IH; reflexivity.
Qed.

Section ScreenExtras.

Variable nanoid : nat -> jsstring.

Lemma step_nanoid_calls (a : Action) (w : World) :
  nanoid_calls w <= nanoid_calls (step nanoid a w).
Proof.
  destruct a as [s| |i|i| |dt]; simpl.
  - worlds. lia.
  - destruct (list_eq_dec N.eq_dec (trim (inputText w)) []) as [E|E].
    + rewrite (handleAddTask_blank _ _ E). lia.
    + rewrite (handleAddTask_text _ _ E). worlds. lia.
  - rewrite handleToggleComplete_calls. lia.
  - unfold handleDelete. worlds. lia.
  - unfold onImageError. worlds. lia.
  - pose proof (advance_store dt w) as Hs. unfold store in Hs.
    injection Hs as _ _ Hc. rewrite Hc. lia.
Qed.

(** An id handed out earlier that no task carries stays without a task. *)
Lemma retired_step (j : nat) (a : Action) (w : World) :
  (forall a b, nanoid a = nanoid b -> a = b) ->
  j < nanoid_calls w ->
  (forall u, In u (tasks w) -> id u <> nanoid j) ->
  forall u, In u (tasks (step nanoid a w)) -> id u <> nanoid j.
Proof.
  intros Huniq Hj Habs. destruct a as [s| |i|i| |dt]; simpl.
  - worlds. exact Habs.
  - destruct (list_eq_dec N.eq_dec (trim (inputText w)) []) as [E|E].
    + now rewrite (handleAddTask_blank _ _ E).
    + rewrite (handleAddTask_text _ _ E). worlds.
      intros u Hu. apply in_app_or in Hu. destruct Hu as [Hu|[<-|[]]].
      * now apply Habs.
      * simpl. intros E'. apply Huniq in E'. lia.
  - rewrite handleToggleComplete_tasks.
    intros u Hu. apply in_map_iff in Hu. destruct Hu as (v & <- & Hv).
    destruct (str_eqb (id v) i); simpl; now apply Habs.
  - rewrite handleDelete_tasks. intros u Hu. apply filter_In in Hu.
    now apply Habs.
  - unfold onImageError. worlds. exact Habs.
  - pose proof (advance_store dt w) as Hs. unfold store in Hs.
    injection Hs as Ht _ _. now rewrite Ht.
Qed.

Lemma retired_run (j : nat) (acts : list Action) (w : World) :
  (forall a b, nanoid a = nanoid b -> a = b) ->
  j < nanoid_calls w ->
  (forall u, In u (tasks w) -> id u <> nanoid j) ->
  forall u, In u (tasks (run nanoid acts w)) -> id u <> nanoid j.
Proof.
  intros Huniq. revert w.
  induction acts as [|a acts IH]; intros w Hj Habs; simpl; [exact Habs|].
  apply IH.
  - pose proof (step_nanoid_calls a w). lia.
  - now apply retired_step.
Qed.

End ScreenExtras.

Lemma find_map_toggle (i : jsstring) (l : list TaskType) :
  find (fun t => str_eqb (id t) i)
    (map (fun t => if str_eqb (id t) i then toggled t else t) l) =
  match find (fun t => str_eqb (id t) i) l with
  | Some t => Some (toggled t)
  | None => None
  end.
Proof.
  induction l as [|x l IH]; simpl; [reflexivity|].
  destruct (str_eqb (id x) i) eqn:E; simpl; rewrite E; [reflexivity|exact IH].
Qed.

(** [handleToggleComplete] as one [showFeedback] and one [setTasks], the
    kind read off the list before the call. *)
Lemma handleToggleComplete_signal (i : jsstring) (w : World) :
  handleToggleComplete i w =
  setTasks (map (fun t => if str_eqb (id t) i then toggled t else t)
                (tasks w))
    (showFeedback
       match find (fun t => str_eqb (id t) i) (tasks w) with
       | Some t => if completed t then Uncompleted else Completed
       | None => Uncompleted
       end w).
Proof.
  unfold handleToggleComplete. rewrite find_map_toggle.
  destruct (find _ (tasks w)) as [[ti tx [|]]|]; reflexivity.
Qed.

Section ScreenProperties.

Variable nanoid : nat -> jsstring.

(** X1. In every state the screen can reach, the text of every task is a
    non-empty string that neither begins nor ends with white space: it is
    its own [trim]. *)
Theorem task_text_trimmed (w : World) (t : TaskType) :
  reachable nanoid w -> In t (tasks w) ->
  text t <> [] /\
  (forall c r, text t = c :: r -> isWhiteSpace c = false) /\
  (forall r c, text t = r ++ [c] -> isWhiteSpace c = false) /\
  trim (text t) = text t.
Proof.
  intros [acts ->] Hin.
  assert (Hinv : text_inv (run nanoid acts init))
    by (apply text_inv_run; intros u []).
  destruct (Hinv t Hin) as [Hne Htrim].
  pose proof (trim_starts_clean (text t)) as H1.
  pose proof (trim_ends_clean (text t)) as H2.
  rewrite Htrim in H1, H2.
  repeat split; try assumption.
  - intros c r E. rewrite E in H1. simpl in H1.
    now apply negb_true_iff in H1.
  - intros r c E. rewrite E, rev_app_distr in H2. simpl in H2.
    now apply negb_true_iff in H2.
Qed.

(** X2. With an id generator that does not repeat itself, in every state
    the screen can reach the tasks have pairwise distinct ids (the keys of
    the rendered rows), and there are no more tasks than [nanoid()] was
    called. *)
Theorem task_ids_unique (w : World) :
  (forall a b, nanoid a = nanoid b -> a = b) ->
  reachable nanoid w ->
  NoDup (map id (tasks w)) /\ length (tasks w) <= nanoid_calls w.
Proof.
  intros Huniq Hr.
  destruct (reachable_ids_inv nanoid Huniq w Hr) as [Hnd Hgen].
  split; [exact Hnd|].
  assert (Hle : length (map id (tasks w)) <=
                length (map nanoid (seq 0 (nanoid_calls w)))).
  { apply NoDup_incl_length; [exact Hnd|].
    intros i Hi. apply in_map_iff in Hi. destruct Hi as (t & <- & Ht).
    destruct (Hgen t Ht) as (j & Hj & ->).
    apply in_map, in_seq. lia. }
  now rewrite !length_map, length_seq in Hle.
Qed.

(** X3. With an id generator that does not repeat itself, a task that was
    deleted does not come back: whatever happens to the screen after
    [handleDelete (id t)], no task carries the id of [t]. *)
Theorem deleted_task_never_returns
    (w : World) (t : TaskType) (acts : list Action) :
  (forall a b, nanoid a = nanoid b -> a = b) ->
  reachable nanoid w -> In t (tasks w) ->
  forall u, In u (tasks (run nanoid acts (handleDelete (id t) w))) ->
            id u <> id t.
Proof.
  intros Huniq Hr Hin.
  destruct (reachable_ids_inv nanoid Huniq w Hr) as [_ Hgen].
  destruct (Hgen t Hin) as (j & Hj & ->).
  apply retired_run; [exact Huniq| |].
  - unfold handleDelete. now worlds.
  - intros u Hu. rewrite handleDelete_tasks in Hu.
    apply filter_In in Hu. destruct Hu as [_ Hu].
    now apply negb_true_iff, str_eqb_neq in Hu.
Qed.

(** X4. Adding a task and deleting it again gives back the list of tasks:
    when the trimmed input is not empty and [nanoid()] returns an id that
    no task carries, [handleDelete] of that id after [handleAddTask] leaves
    the tasks as they were before the two. *)
Theorem add_then_delete (w : World) :
  trim (inputText w) <> [] ->
  (forall u, In u (tasks w) -> id u <> nanoid (nanoid_calls w)) ->
  tasks (handleDelete (nanoid (nanoid_calls w)) (handleAddTask nanoid w)) =
  tasks w.
Proof.
  intros Htext Hfresh.
  rewrite handleDelete_tasks, (handleAddTask_text _ _ Htext). worlds.
  rewrite filter_app, (filter_absent _ _ Hfresh). simpl.
  rewrite str_eqb_refl. simpl. apply app_nil_r.
Qed.

(** X7. In every state the screen can reach, a feedback on display is gone
    once 3500 ms pass without an action: then nothing is shown and no
    timeout is pending. *)
Theorem feedback_gone_after_window (w : World) (dt : N) :
  reachable nanoid w -> (FEEDBACK_DURATION_MS <= dt)%N ->
  feedbackType (advance dt w) = None /\ pending (advance dt w) = [].
Proof.
  intros Hr Hdt. destruct (reachable_display_inv nanoid w Hr) as [Hinv Hd].
  destruct (timer_inv_cases _ Hinv) as [[Hq Hn]|(h & d & Hq & _)].
  - rewrite (advance_idle dt _ Hq). now split.
  - pose proof (inv_window _ Hd (mkTimer h d)) as Hw.
    rewrite Hq in Hw. specialize (Hw (or_introl eq_refl)). simpl in Hw.
    erewrite advance_late; [now split|exact Hq|lia].
Qed.

(** X8. In every state the screen can reach, the overlay is rendered
    exactly while a timeout is pending; it then shows the GIF of the latest
    [showFeedback] call, and the one pending timeout is due within the next
    3500 ms. *)
Theorem overlay_shows_latest (w : World) :
  reachable nanoid w ->
  (overlay w = None <-> pending w = []) /\
  (forall img, overlay w = Some img ->
     exists k h d,
       last_shown w = Some k /\ img = CAT_IMAGES k /\
       timers w = [mkTimer h d] /\
       (clock w < d <= clock w + FEEDBACK_DURATION_MS)%N).
Proof.
  intros Hr. destruct (reachable_display_inv nanoid w Hr) as [Hinv Hd].
  unfold overlay, pending.
  destruct (timer_inv_cases _ Hinv)
    as [[Hq Hn]|(h & d & Hq & _ & Hc & _ & Hs)].
  - rewrite Hq, Hn. simpl. split; [tauto|discriminate].
  - rewrite Hq. destruct (feedbackType w) as [k|] eqn:Ek; [|congruence].
    split; [split; discriminate|].
    intros img [= <-]. exists k, h, d.
    split; [exact (inv_last _ Hd k Ek)|]. split; [reflexivity|].
    split; [reflexivity|]. split; [exact Hc|].
    apply (inv_window _ Hd (mkTimer h d)). rewrite Hq. now left.
Qed.

(** X9. Time passing and image load failures never change the task list,
    the input text or the count of generated ids: the timeout callback
    hides the feedback and does nothing else. *)
Theorem passive_actions_keep_store (acts : list Action) (w : World) :
  forallb passive acts = true -> store (run nanoid acts w) = store w.
Proof.
  revert w. induction acts as [|a acts IH]; intros w H; simpl in *.
  - reflexivity.
  - apply andb_true_iff in H. destruct H as [Ha H]. rewrite (IH _ H).
    destruct a; try discriminate; simpl.
    + unfold onImageError. now destruct w.
    + apply advance_store.
Qed.

(** X10. Every press that reaches [showFeedback] restarts the display
    window, whatever was pending before, with the kind it signals on
    display for the next 3500 ms and gone after.
    [handleToggleComplete i] signals the kind read off the first task with
    id [i]: 'completed' when that task was not completed, 'uncompleted'
    when it was, and 'uncompleted' when there is no such task;
    [handleDelete] signals 'deleted'; [handleAddTask] on an input that is
    not blank signals 'added'. *)
Theorem handlers_restart_window (i : jsstring) (w : World) :
  timer_inv w ->
  (let k := match find (fun t => str_eqb (id t) i) (tasks w) with
            | Some t => if completed t then Uncompleted else Completed
            | None => Uncompleted
            end in
   trace (handleToggleComplete i w) = trace w ++ [Shown k] /\
   on_display_for_window k (handleToggleComplete i w)) /\
  (trace (handleDelete i w) = trace w ++ [Shown Deleted] /\
   on_display_for_window Deleted (handleDelete i w)) /\
  (trim (inputText w) <> [] ->
   trace (handleAddTask nanoid w) = trace w ++ [Shown Added] /\
   on_display_for_window Added (handleAddTask nanoid w)).
Proof.
  intros Hinv. split; [|split].
  - rewrite (handleToggleComplete_signal i w).
    split; [now worlds|].
    apply window_after with w; [exact Hinv|apply timing_setTasks].
  - split; [unfold handleDelete; now worlds|].
    apply window_after with w; [exact Hinv|].
    unfold handleDelete. apply showFeedback_timing, timing_setTasks.
  - intros Htext. rewrite (handleAddTask_text _ _ Htext).
    split; [now worlds|].
    apply window_after with w; [exact Hinv|]. apply showFeedback_timing.
    now rewrite timing_setInputText, timing_set_nanoid_calls, timing_setTasks.
Qed.

End ScreenProperties.

(** X5. Deleting the same id twice removes nothing more than deleting it
    once, but each call signals 'deleted'. *)
Theorem handleDelete_twice (i : jsstring) (w : World) :
  tasks (handleDelete i (handleDelete i w)) = tasks (handleDelete i w) /\
  trace (handleDelete i (handleDelete i w)) =
  trace w ++ [Shown Deleted; Shown Deleted].
Proof.
  split.
  - rewrite !handleDelete_tasks. apply filter_id_twice.
  - unfold handleDelete. worlds. now rewrite <- app_assoc.
Qed.

(** X6. On the list of tasks the order of two presses does not matter:
    two toggles, two deletes, or a toggle and a delete, of any two ids,
    give the same list either way round. *)
Theorem handlers_commute_on_tasks (i j : jsstring) (w : World) :
  tasks (handleToggleComplete i (handleToggleComplete j w)) =
  tasks (handleToggleComplete j (handleToggleComplete i w)) /\
  tasks (handleDelete i (handleDelete j w)) =
  tasks (handleDelete j (handleDelete i w)) /\
  tasks (handleDelete j (handleToggleComplete i w)) =
  tasks (handleToggleComplete i (handleDelete j w)).
Proof.
  repeat split.
  - rewrite !handleToggleComplete_tasks. apply map_toggle_swap.
  - rewrite !handleDelete_tasks. apply filter_id_swap.
  - rewrite handleDelete_tasks, !handleToggleComplete_tasks,
      handleDelete_tasks.
    apply filter_map_toggle.
Qed.

(** ** The added properties on the sample screen *)

Lemma reachable_one_task : reachable sample_nanoid one_task.
Proof. now exists [ChangeText wash_dishes; PressAdd]. Qed.

Lemma reachable_two_tasks : reachable sample_nanoid two_tasks.
Proof.
  now exists [ChangeText wash_dishes; PressAdd; Elapse 1000;
              ChangeText (js "feed the cat"); PressAdd].
Qed.

Lemma task_text_trimmed_witness :
  reachable sample_nanoid two_tasks /\ In feed_task (tasks two_tasks) /\
  trim (text feed_task) = text feed_task /\
  (forall c r, text wash_task = c :: r -> isWhiteSpace c = false).
Proof.
  assert (H1 : In wash_task (tasks two_tasks)) by (left; reflexivity).
  assert (H2 : In feed_task (tasks two_tasks)) by (right; left; reflexivity).
  split; [exact reachable_two_tasks|]. split; [exact H2|].
  split.
  - exact (proj2 (proj2 (proj2 (task_text_trimmed sample_nanoid two_tasks
                                  feed_task reachable_two_tasks H2)))).
  - exact (proj1 (proj2 (task_text_trimmed sample_nanoid two_tasks
                           wash_task reachable_two_tasks H1))).
Defined.

Lemma task_ids_unique_witness :
  (forall a b, sample_nanoid a = sample_nanoid b -> a = b) /\
  reachable sample_nanoid two_tasks /\
  NoDup [js "id"; js "idx"] /\ 2 <= nanoid_calls two_tasks.
Proof.
  split; [exact sample_nanoid_unique|]. split; [exact reachable_two_tasks|].
  exact (task_ids_unique sample_nanoid two_tasks sample_nanoid_unique
           reachable_two_tasks).
Defined.

Lemma deleted_task_never_returns_witness :
  reachable sample_nanoid two_tasks /\ In wash_task (tasks two_tasks) /\
  forall u,
    In u (tasks (run sample_nanoid
                   [ChangeText (js "walk"); PressAdd; PressToggle (js "id")]
                   (handleDelete (js "id") two_tasks))) ->
    id u <> js "id".
Proof.
  assert (H1 : In wash_task (tasks two_tasks)) by (left; reflexivity).
  split; [exact reachable_two_tasks|]. split; [exact H1|].
  exact (deleted_task_never_returns sample_nanoid two_tasks wash_task
           [ChangeText (js "walk"); PressAdd; PressToggle (js "id")]
           sample_nanoid_unique reachable_two_tasks H1).
Defined.

Lemma add_then_delete_witness :
  let w := setInputText (js " feed the cat ") one_task in
  trim (inputText w) <> [] /\
  (forall u, In u (tasks w) -> id u <> js "idx") /\
  tasks (handleDelete (js "idx") (handleAddTask sample_nanoid w)) =
  [wash_task].
Proof.
  assert (Htext : trim (inputText
                          (setInputText (js " feed the cat ") one_task))
                  <> []) by discriminate.
  assert (Hfresh : forall u,
             In u (tasks (setInputText (js " feed the cat ") one_task)) ->
             id u <> js "idx")
    by (intros u [<-|[]]; discriminate).
  split; [exact Htext|]. split; [exact Hfresh|].
  exact (add_then_delete sample_nanoid
           (setInputText (js " feed the cat ") one_task) Htext Hfresh).
Defined.

Lemma feedback_gone_after_window_witness :
  reachable sample_nanoid two_tasks /\
  (FEEDBACK_DURATION_MS <= 3500)%N /\
  feedbackType two_tasks = Some Added /\
  feedbackType (advance 3500 two_tasks) = None.
Proof.
  assert (Hle : (FEEDBACK_DURATION_MS <= 3500)%N) by discriminate.
  split; [exact reachable_two_tasks|]. split; [exact Hle|].
  split; [reflexivity|].
  exact (proj1 (feedback_gone_after_window sample_nanoid two_tasks 3500
                  reachable_two_tasks Hle)).
Defined.

Lemma overlay_shows_latest_witness :
  reachable sample_nanoid two_tasks /\
  overlay two_tasks = Some (js "@/assets/images/cats/cat-watching.gif") /\
  exists k h d,
    last_shown two_tasks = Some k /\
    js "@/assets/images/cats/cat-watching.gif" = CAT_IMAGES k /\
    timers two_tasks = [mkTimer h d] /\
    (clock two_tasks < d <= clock two_tasks + FEEDBACK_DURATION_MS)%N.
Proof.
  split; [exact reachable_two_tasks|]. split; [reflexivity|].
  exact (proj2 (overlay_shows_latest sample_nanoid two_tasks
                  reachable_two_tasks)
           (js "@/assets/images/cats/cat-watching.gif") eq_refl).
Defined.

Lemma passive_actions_keep_store_witness :
  forallb passive [Elapse 2000; ImageError; Elapse 5000] = true /\
  tasks (run sample_nanoid [Elapse 2000; ImageError; Elapse 5000] two_tasks)
  = [wash_task; feed_task].
Proof.
  split; [reflexivity|].
  exact (f_equal (fun s => fst (fst s))
           (passive_actions_keep_store sample_nanoid
              [Elapse 2000; ImageError; Elapse 5000] two_tasks eq_refl)).
Defined.

Lemma handlers_restart_window_witness :
  timer_inv one_task /\
  trace (handleToggleComplete (js "id") one_task) =
  [Shown Added; Shown Completed] /\
  feedbackType (advance 3499 (handleToggleComplete (js "id") one_task)) =
  Some Completed /\
  feedbackType (advance 3499 (handleDelete (js "id") (advance 3000 one_task)))
  = Some Deleted /\
  feedbackType (advance 3500 (handleDelete (js "id") one_task)) = None.
Proof.
  split; [exact timer_inv_one_task|].
  destruct (handlers_restart_window sample_nanoid (js "id") one_task
              timer_inv_one_task)
    as ((Htr & _ & Htoggle) & (_ & _ & Hdelete) & _).
  split; [exact Htr|]. split; [exact (Htoggle 3499%N)|]. split.
  - assert (Hinv : timer_inv (advance 3000 one_task))
      by (apply timer_inv_advance, timer_inv_one_task).
    exact (proj2 (proj2 (proj1 (proj2
             (handlers_restart_window sample_nanoid (js "id")
                (advance 3000 one_task) Hinv)))) 3499%N).
  - exact (Hdelete 3500%N).
Defined.

(** * The theme hook *)

Lemma Colors_not_empty (theme : Theme.ColorScheme) (name : Theme.ColorName) :
  Theme.Colors theme name <> [].
Proof. destruct theme, name; discriminate. Qed.

(** X11. [useThemeColor] never returns the empty string: an override that
    is the empty string counts as absent, and every entry of [Colors] is a
    non-empty string. *)
Theorem useThemeColor_never_empty
    (scheme : option Theme.ColorScheme) (props : Theme.Props)
    (name : Theme.ColorName) :
  Theme.useThemeColor scheme props name <> [].
Proof.
  unfold Theme.useThemeColor.
  destruct (Theme.prop props _) as [[|c s]|]; simpl;
    try apply Colors_not_empty.
  discriminate.
Qed.

(** * The page script *)

Lemma toggleTheme_theme (p : Site.Page) :
  Site.data_theme (Site.toggleTheme p) =
  Some (match Site.data_theme p with
        | Some t => if str_eqb t (js "light") then js "dark" else js "light"
        | None => js "light"
        end) /\
  Site.stored_theme (Site.toggleTheme p) =
  Site.data_theme (Site.toggleTheme p).
Proof.
  unfold Site.toggleTheme, Site.set_toggle_text.
  destruct p as [d s [txt|]]; simpl; now split.
Qed.

(** X12. [toggleTheme] switches between 'light' and 'dark': a 'light'
    attribute becomes 'dark', anything else (no attribute, 'dark', an
    unknown value) becomes 'light'; so after one call a second call undoes
    it and a third repeats it, and from 'light' or 'dark' two calls give
    back the attribute. *)
Theorem toggleTheme_cycle (p : Site.Page) :
  (Site.data_theme (Site.toggleTheme p) = Some (js "dark") <->
   Site.data_theme p = Some (js "light")) /\
  (Site.data_theme (Site.toggleTheme p) = Some (js "light") <->
   Site.data_theme p <> Some (js "light")) /\
  Site.toggleTheme (Site.toggleTheme (Site.toggleTheme p)) =
  Site.toggleTheme p /\
  (Site.data_theme p = Some (js "light") \/
   Site.data_theme p = Some (js "dark") ->
   Site.data_theme (Site.toggleTheme (Site.toggleTheme p)) =
   Site.data_theme p).
Proof.
  destruct p as [[d|] s t]; unfold Site.toggleTheme, Site.set_toggle_text;
    simpl.
  - destruct (str_eqb d (js "light")) eqn:E.
    + apply str_eqb_eq in E. subst d.
      destruct t; simpl; repeat split; try discriminate; try tauto;
        try congruence.
    + apply str_eqb_neq in E.
      destruct t; simpl; repeat split; try discriminate; try congruence;
        try (intros [H|H]; congruence).
  - destruct t; simpl; repeat split; try discriminate; try congruence;
      try (intros [H|H]; congruence).
Qed.

(** X13. The theme survives a reload: on any page that finds in
    [localStorage] what [toggleTheme] left there, the load script sets the
    attribute [toggleTheme] had set and, when the page has a toggle, the
    icon of that theme; the load script writes nothing to the storage. *)
Theorem toggleTheme_then_load (p q : Site.Page) :
  Site.stored_theme q = Site.stored_theme (Site.toggleTheme p) ->
  Site.data_theme (Site.load q) = Site.data_theme (Site.toggleTheme p) /\
  Site.stored_theme (Site.load q) = Site.stored_theme q /\
  (forall txt theme,
     Site.toggle_text (Site.load q) = Some txt ->
     Site.data_theme (Site.toggleTheme p) = Some theme ->
     txt = Site.icon theme).
Proof.
  intros Hs. destruct (toggleTheme_theme p) as [Ed Es].
  rewrite Es, Ed in Hs. rewrite Ed. clear Ed Es.
  destruct q as [qd qs [qt|]]; simpl in Hs; subst qs;
    unfold Site.load, Site.set_toggle_text; simpl;
    destruct (Site.data_theme p) as [d|]; simpl;
    try destruct (str_eqb d (js "light")); simpl;
    repeat split; intros txt theme H1 H2;
    try discriminate; injection H1 as <-; injection H2 as <-; reflexivity.
Qed.

(** X14. On load, a missing or empty stored theme gives 'dark', any other
    stored string is applied as it is; and after the load script as after
    [toggleTheme], a toggle that is on the page shows the moon when the
    attribute is 'light' and the sun otherwise. *)
Theorem load_theme (p : Site.Page) :
  Site.data_theme (Site.load p) =
  Some (match Site.stored_theme p with
        | Some (c :: s) => c :: s
        | _ => js "dark"
        end) /\
  Site.icon_matches (Site.load p) /\
  Site.icon_matches (Site.toggleTheme p).
Proof.
  unfold Site.icon_matches, Site.load, Site.toggleTheme,
    Site.set_toggle_text.
  destruct p as [d s [t|]]; simpl; repeat split;
    try (now destruct s as [[|c s]|]);
    try discriminate; intros txt [= <-]; eauto.
Qed.

(** * [findDuplicates] *)

Section FindDuplicatesFacts.

Variable A : Type.
Variable A_eq_dec : forall x y : A, {x = y} + {x <> y}.

Lemma Set_has_In (s : list A) (x : A) : Set_has A_eq_dec s x = true <-> In x s.
Proof.
  unfold Set_has. destruct (in_dec A_eq_dec x s); split; congruence.
Qed.

Lemma Set_add_In (s : list A) (x y : A) :
  In y (Set_add A_eq_dec s x) <-> In y s \/ y = x.
Proof.
  unfold Set_add. destruct (Set_has A_eq_dec s x) eqn:E.
  - apply Set_has_In in E. split; [tauto|]. intros [H| ->]; assumption.
  - rewrite in_app_iff. simpl. intuition congruence.
Qed.

Lemma Set_add_NoDup (s : list A) (x : A) : NoDup s -> NoDup (Set_add A_eq_dec s x).
Proof.
  intros Hnd. unfold Set_add. destruct (Set_has A_eq_dec s x) eqn:E; [exact Hnd|].
  assert (Hx : ~ In x s) by (rewrite <- Set_has_In; congruence).
  apply NoDup_app; [exact Hnd|repeat constructor; intros []|].
  intros y Hy [<-|[]]. contradiction.
Qed.

(** What the loop holds after a prefix [p] of the array: [seen] Set_has A_eq_dec the
    values of [p], [duplicates] the ones met twice or more, once each. *)
Lemma loop_invariant (p : list A) :
  let st := fold_left (visit A_eq_dec) p ([], []) in
  (forall x, In x (fst st) <-> In x p) /\
  (forall x, In x (snd st) <-> 2 <= count_occ A_eq_dec p x) /\
  NoDup (snd st).
Proof.
  induction p as [|a p IH] using rev_ind; simpl.
  - repeat split; try tauto; try lia. constructor.
  - rewrite fold_left_app. simpl.
    destruct (fold_left (visit A_eq_dec) p ([], [])) as [seen dups].
    simpl in IH. destruct IH as (Hseen & Hdups & Hnd).
    unfold visit. destruct (Set_has A_eq_dec seen a) eqn:E; simpl.
    + apply Set_has_In, Hseen in E.
      assert (Ha : 1 <= count_occ A_eq_dec p a) by now apply count_occ_In.
      repeat split.
      * rewrite Hseen, in_app_iff. simpl. tauto.
      * rewrite in_app_iff. simpl. rewrite <- Hseen.
        intros [H|[<-|[]]]; [assumption|now apply Hseen].
      * rewrite Set_add_In, Hdups, count_occ_app. simpl.
        destruct (A_eq_dec a x); [subst x|]; intros [H|H]; subst;
          try lia; congruence.
      * rewrite Set_add_In, Hdups, count_occ_app. simpl.
        destruct (A_eq_dec a x); [subst x|]; intros H; [now right|left; lia].
      * now apply Set_add_NoDup.
    + assert (Ha : count_occ A_eq_dec p a = 0).
      { apply count_occ_not_In. rewrite <- Hseen, <- Set_has_In. congruence. }
      repeat split.
      * rewrite Set_add_In, Hseen, in_app_iff. simpl. intuition.
      * rewrite Set_add_In, Hseen, in_app_iff. simpl. intuition.
      * rewrite Hdups, count_occ_app. simpl.
        destruct (A_eq_dec a x); [subst x|]; lia.
      * rewrite Hdups, count_occ_app. simpl.
        destruct (A_eq_dec a x); [subst x|]; lia.
      * exact Hnd.
Qed.

(** X15. [findDuplicates] returns exactly the values that occur twice or
    more in the array; the result is empty exactly when no value of the
    array repeats. *)
Theorem findDuplicates_spec (arr : list A) :
  (forall x, In x (findDuplicates A_eq_dec arr) <-> 2 <= count_occ A_eq_dec arr x) /\
  (findDuplicates A_eq_dec arr = [] <-> NoDup arr).
Proof.
  destruct (loop_invariant arr) as (_ & Hdups & _).
  fold (findDuplicates A_eq_dec arr) in Hdups.
  split; [exact Hdups|].
  rewrite (NoDup_count_occ A_eq_dec). split.
  - intros E x. specialize (Hdups x). rewrite E in Hdups. simpl in Hdups.
    destruct (le_lt_dec 2 (count_occ A_eq_dec arr x)); [tauto|lia].
  - intros H. destruct (findDuplicates A_eq_dec arr) as [|y l]; [reflexivity|].
    specialize (H y). assert (2 <= count_occ A_eq_dec arr y); [|lia].
    apply Hdups. now left.
Qed.

(** X16. [findDuplicates] reports every repeated value once. *)
Theorem findDuplicates_once (arr : list A) :
  NoDup (findDuplicates A_eq_dec arr).
Proof. exact (proj2 (proj2 (loop_invariant arr))). Qed.

(** X17. The repeated values come in the order in which their second
    count_occ A_eq_dec come in the array: one more element at the end of the array
    is added at the end of the result when it occurs earlier in the array
    and is not in the result yet, and changes nothing otherwise. *)
Theorem findDuplicates_snoc (arr : list A) (x : A) :
  findDuplicates A_eq_dec (arr ++ [x]) =
  if in_dec A_eq_dec x arr
  then if in_dec A_eq_dec x (findDuplicates A_eq_dec arr)
       then findDuplicates A_eq_dec arr
       else findDuplicates A_eq_dec arr ++ [x]
  else findDuplicates A_eq_dec arr.
Proof.
  destruct (loop_invariant arr) as (Hseen & _ & _).
  unfold findDuplicates in *. rewrite fold_left_app. simpl.
  destruct (fold_left (visit A_eq_dec) arr ([], [])) as [seen dups].
  simpl in *. unfold visit, Set_add, Set_has.
  destruct (in_dec A_eq_dec x seen) as [Hin|Hout];
    destruct (in_dec A_eq_dec x arr) as [Hin'|Hout']; simpl.
  - now destruct (in_dec A_eq_dec x dups).
  - apply Hseen in Hin. contradiction.
  - apply Hseen in Hin'. contradiction.
  - reflexivity.
Qed.

End FindDuplicatesFacts.

(** The array of the walk-through. *)
Example findDuplicates_1232 :
  findDuplicates N.eq_dec [1; 2; 3; 2]%N = [2%N] /\
  findDuplicates N.eq_dec [3; 1; 1; 3; 1; 3]%N = [1; 3]%N.
Proof. split; reflexivity. Qed.

(** * The edit mode *)

Lemma map_edit_absent (e : EditScreen) (x : jsstring) (l : list TaskType) :
  (forall u, In u l -> is_editing e u = false) ->
  map (fun u => if is_editing e u then mkTask (id u) x (completed u) else u)
      l = l.
Proof.
  induction l as [|u l IH]; intros H; simpl; [reflexivity|].
  rewrite (H u (or_introl eq_refl)), IH; [reflexivity|].
  intros v Hv. apply H. now right.
Qed.

Lemma handleSaveEdit_text (e : EditScreen) :
  trim (editText e) <> [] ->
  handleSaveEdit e =
  mkEdit
    (setTasks
       (map (fun t =>
               if is_editing e t
               then mkTask (id t) (trim (editText e)) (completed t)
               else t)
            (tasks (screen e)))
       (screen e))
    None [].
Proof.
  unfold handleSaveEdit. destruct (trim (editText e)); [congruence|reflexivity].
Qed.

(** X18. [handleSaveEdit] with an edit text that is empty or white space
    only does nothing at all: no task changes and the edit mode stays
    open, with the same task and the same text. *)
Theorem handleSaveEdit_blank (e : EditScreen) :
  forallb isWhiteSpace (editText e) = true -> handleSaveEdit e = e.
Proof.
  intros H. apply trim_nil in H. unfold handleSaveEdit. now rewrite H.
Qed.

(** X19. With ids that identify tasks, [handleSaveEdit] with a text that
    is not blank replaces the text of the task being edited by the trimmed
    edit text and changes nothing else: the task keeps its place, id and
    completed flag, the other tasks are untouched, no feedback is shown and
    no timeout is touched; the edit mode is closed and the edit text
    cleared. Task texts stay trimmed and non-empty. *)
Theorem handleSaveEdit_frame (e : EditScreen) (t : TaskType) :
  trim (editText e) <> [] ->
  NoDup (map id (tasks (screen e))) ->
  In t (tasks (screen e)) ->
  editingId e = Some (id t) ->
  let e' := handleSaveEdit e in
  (exists l1 l2,
      tasks (screen e) = l1 ++ t :: l2 /\
      tasks (screen e') =
      l1 ++ mkTask (id t) (trim (editText e)) (completed t) :: l2) /\
  map id (tasks (screen e')) = map id (tasks (screen e)) /\
  map completed (tasks (screen e')) = map completed (tasks (screen e)) /\
  timing (screen e') = timing (screen e) /\
  editingId e' = None /\ editText e' = [] /\
  (text_inv (screen e) -> text_inv (screen e')).
Proof.
  intros Htext Hnd Hin Hid e'.
  destruct (split_at_id _ _ Hnd Hin) as (l1 & l2 & E & H1 & H2).
  assert (Ht : tasks (screen e') =
               map (fun u =>
                      if is_editing e u
                      then mkTask (id u) (trim (editText e)) (completed u)
                      else u)
                   (tasks (screen e))).
  { unfold e'. rewrite (handleSaveEdit_text e Htext). simpl.
    now rewrite setTasks_eq. }
  assert (Hother : forall l, (forall u, In u l -> id u <> id t) ->
                             forall u, In u l -> is_editing e u = false).
  { intros l Hl u Hu. unfold is_editing. rewrite Hid.
    now apply str_eqb_neq, Hl. }
  split; [|split; [|split; [|split; [|split; [|split]]]]].
  - exists l1, l2. split; [exact E|]. rewrite Ht, E, map_app. simpl.
    rewrite (map_edit_absent e _ l1 (Hother l1 H1)).
    rewrite (map_edit_absent e _ l2 (Hother l2 H2)).
    unfold is_editing at 1. now rewrite Hid, str_eqb_refl.
  - rewrite Ht, map_map. apply map_ext. intros u.
    now destruct (is_editing e u).
  - rewrite Ht, map_map. apply map_ext. intros u.
    now destruct (is_editing e u).
  - unfold e'. rewrite (handleSaveEdit_text e Htext). simpl.
    apply timing_setTasks.
  - unfold e'. now rewrite (handleSaveEdit_text e Htext).
  - unfold e'. now rewrite (handleSaveEdit_text e Htext).
  - unfold text_inv. intros Hinv u Hu. rewrite Ht in Hu.
    apply in_map_iff in Hu. destruct Hu as (v & <- & Hv).
    destruct (is_editing e v); [|now apply Hinv].
    simpl. split; [exact Htext|apply trim_idempotent].
Qed.


Section EditFacts.

Variable nanoid : nat -> jsstring.

(** X20. On a screen that can be reached, with an id generator that does
    not repeat itself: opening a task with [handleStartEdit] and saving at
    once with [handleSaveEdit] leaves the list of tasks as it was, and so
    does [handleCancelEdit]. *)
Theorem edit_without_typing (e : EditScreen) (t : TaskType) :
  (forall a b, nanoid a = nanoid b -> a = b) ->
  reachable nanoid (screen e) ->
  In t (tasks (screen e)) ->
  screen (handleSaveEdit (handleStartEdit t e)) = screen e /\
  screen (handleCancelEdit (handleStartEdit t e)) = screen e /\
  editingId (handleSaveEdit (handleStartEdit t e)) = None.
Proof.
  intros Huniq Hr Hin.
  destruct (reachable_ids_inv nanoid Huniq _ Hr) as [Hnd _].
  assert (Htx : text t <> [] /\ trim (text t) = text t).
  { destruct Hr as [acts E]. rewrite E in Hin.
    apply (text_inv_run nanoid acts init); [intros u []|exact Hin]. }
  destruct Htx as [Hne Htrim].
  assert (Htext : trim (editText (handleStartEdit t e)) <> [])
    by (simpl; now rewrite Htrim).
  rewrite (handleSaveEdit_text _ Htext). simpl.
  repeat split. rewrite Htrim.
  rewrite <- (setTasks_same (screen e)) at 3. f_equal.
  rewrite <- (map_id (tasks (screen e))) at 2.
  apply map_ext_in. intros u Hu. unfold is_editing. simpl.
  destruct (str_eqb (id u) (id t)) eqn:E; [|reflexivity].
  apply str_eqb_eq in E.
  assert (u = t) by (apply (NoDup_map_eq id (tasks (screen e))); auto).
  subst u. now destruct t.
Qed.

End EditFacts.

(** ** The added properties on sample data *)

Lemma toggleTheme_then_load_witness :
  let p := Site.mkPage (Some (js "dark")) None (Some Site.sun) in
  let q := Site.mkPage None (Some (js "light")) (Some (js "?")) in
  Site.stored_theme q = Site.stored_theme (Site.toggleTheme p) /\
  Site.data_theme (Site.load q) = Some (js "light") /\
  Site.toggle_text (Site.load q) = Some Site.moon.
Proof.
  split; [reflexivity|].
  destruct (toggleTheme_then_load
              (Site.mkPage (Some (js "dark")) None (Some Site.sun))
              (Site.mkPage None (Some (js "light")) (Some (js "?")))
              eq_refl)
    as (Hd & _ & Hicon).
  split; [exact Hd|].
  exact (f_equal Some (eq_sym (Hicon _ (js "light") eq_refl eq_refl))).
Defined.

Lemma handleSaveEdit_blank_witness :
  let e := mkEdit two_tasks (Some (js "idx")) blank_text in
  forallb isWhiteSpace (editText e) = true /\
  editingId (handleSaveEdit e) = Some (js "idx") /\
  tasks (screen (handleSaveEdit e)) = [wash_task; feed_task].
Proof.
  split; [reflexivity|].
  pose proof (handleSaveEdit_blank
                (mkEdit two_tasks (Some (js "idx")) blank_text) eq_refl)
    as H.
  split.
  - exact (f_equal editingId H).
  - exact (f_equal (fun e => tasks (screen e)) H).
Defined.

Lemma handleSaveEdit_frame_witness :
  let e := mkEdit two_tasks (Some (js "idx")) (js " feed the dog ") in
  trim (editText e) <> [] /\
  NoDup (map id (tasks (screen e))) /\
  In feed_task (tasks (screen e)) /\
  editingId e = Some (id feed_task) /\
  map id (tasks (screen (handleSaveEdit e))) = [js "id"; js "idx"] /\
  timing (screen (handleSaveEdit e)) = timing two_tasks /\
  editingId (handleSaveEdit e) = None.
Proof.
  assert (Htext : trim (js " feed the dog ") <> []) by discriminate.
  assert (Hin : In feed_task (tasks two_tasks)) by (right; left; reflexivity).
  split; [exact Htext|]. split; [exact ids_unique_two_tasks|].
  split; [exact Hin|]. split; [reflexivity|].
  destruct (handleSaveEdit_frame
              (mkEdit two_tasks (Some (js "idx")) (js " feed the dog "))
              feed_task Htext ids_unique_two_tasks Hin eq_refl)
    as (_ & Hids & _ & Htm & Hid & _).
  split; [exact Hids|]. split; [exact Htm|exact Hid].
Defined.


Lemma edit_without_typing_witness :
  reachable sample_nanoid two_tasks /\ In wash_task (tasks two_tasks) /\
  tasks (screen (handleSaveEdit
                   (handleStartEdit wash_task (mkEdit two_tasks None []))))
  = [wash_task; feed_task].
Proof.
  assert (Hin : In wash_task (tasks two_tasks)) by (left; reflexivity).
  split; [exact reachable_two_tasks|]. split; [exact Hin|].
  exact (f_equal tasks
           (proj1 (edit_without_typing sample_nanoid
                     (mkEdit two_tasks None []) wash_task
                     sample_nanoid_unique reachable_two_tasks Hin))).
Defined.
